(** * xshopai/admin-ui: SKU preview generation and variant-inventory cache

    A shallow embedding of
    - [generateSkuPreview] (src/pages/AddProductPage.tsx), the live SKU
      preview of the product-creation form, and
    - [StockBadge], [toggleExpand], [getTotalStock], [hasInventoryLoaded]
      of the product listing (the ProductsPage component stored in
      src/pages/LoginPage.tsx),
    together with the properties the specification states about them; and
    of the code around them: the variant list and [handleSubmit] of the
    product-creation form, the filters, category choices and variant rows
    of the listing, and signing in ([handleSubmit] of the login page with
    [authApi.login] of src/services/api.ts).

    Conventions of the embedding.
    - A JavaScript string is a [string]; one [ascii] stands for one UTF-16
      code unit in the range 0..255.  The character classes of the regular
      expressions ([a-zA-Z], [\d], [\s]) and [trim] are exact on that range.
      [toLowerCase] is exact on that range too (it folds A-Z and the
      Latin-1 capitals).  [toUpperCase] is the ASCII case map, which is what
      the engine computes on ASCII text; on the code units 128..255 the
      engine also maps the Latin-1 letters, some of them out of the range,
      so the colour and size segments of such inputs are not covered, and
      no statement below depends on them.
    - A [number] that holds a stock quantity is an integer-valued double,
      given as a [Z]; comparisons are exact, and sums are computed with the
      rounding and the overflow of the doubles, see [Js.add].
    - An object used as a dictionary is a [gmap string _] of its own
      properties; a property read ([o[k]], [k in o]) also sees the members
      inherited from [Object.prototype], see [Js.get].
    - A [Set<string>] of which only membership is observed is a
      [gset string]. *)

From Stdlib Require Import ZArith Ascii.
From stdpp Require Import base decidable option list gmap strings.

Local Open Scope Z_scope.

(** ** JavaScript primitives used by the two pages *)

Module Js.

(** *** Character classes *)

Definition code_unit (c : ascii) : N := N_of_ascii c.

Definition in_range (lo hi : N) (c : ascii) : bool :=
  ((lo <=? code_unit c) && (code_unit c <=? hi))%N.

(** [[0-9]], i.e. [\d]. *)
Definition is_digit (c : ascii) : bool := in_range 48 57 c.

Definition is_upper (c : ascii) : bool := in_range 65 90 c.
Definition is_lower (c : ascii) : bool := in_range 97 122 c.

(** [[a-zA-Z]]. *)
Definition is_letter (c : ascii) : bool := is_lower c || is_upper c.

(** [\s] and the characters removed by [trim]: TAB, LF, VT, FF, CR, SP and
    NBSP are the white space and line terminators below code unit 256. *)
Definition is_space (c : ascii) : bool :=
  in_range 9 13 c || (code_unit c =? 32)%N || (code_unit c =? 160)%N.

(** *** Strings *)

Fixpoint all_chars (p : ascii → bool) (s : string) : bool :=
  match s with
  | EmptyString => true
  | String c s' => p c && all_chars p s'
  end.

Definition is_empty (s : string) : bool :=
  match s with EmptyString => true | String _ _ => false end.

(** [s.replace(/[^...]/g, '')]: keep the characters in the class [p]. *)
Fixpoint keep_chars (p : ascii → bool) (s : string) : string :=
  match s with
  | EmptyString => EmptyString
  | String c s' => if p c then String c (keep_chars p s') else keep_chars p s'
  end.

Fixpoint trimStart (s : string) : string :=
  match s with
  | EmptyString => EmptyString
  | String c s' => if is_space c then trimStart s' else s
  end.

Fixpoint trimEnd (s : string) : string :=
  match s with
  | EmptyString => EmptyString
  | String c s' =>
      let r := trimEnd s' in
      if is_space c && is_empty r then EmptyString else String c r
  end.

Definition trim (s : string) : string := trimEnd (trimStart s).

(** [s.substring(0, n)]. *)
Fixpoint substring0 (n : nat) (s : string) : string :=
  match n, s with
  | S n', String c s' => String c (substring0 n' s')
  | _, _ => EmptyString
  end.

Fixpoint repeat_char (c : ascii) (n : nat) : string :=
  match n with
  | O => EmptyString
  | S n' => String c (repeat_char c n')
  end.

(** [s.padEnd(n, c)] for a one-character filler. *)
Definition padEnd (n : nat) (c : ascii) (s : string) : string :=
  s +:+ repeat_char c (n - String.length s).

Definition upper_char (c : ascii) : ascii :=
  if is_lower c then ascii_of_N (code_unit c - 32) else c.

(** The capitals of Latin-1 above ASCII: 192..222 but the sign 215. *)
Definition is_latin1_upper (c : ascii) : bool :=
  in_range 192 222 c && negb (code_unit c =? 215)%N.

Definition lower_char (c : ascii) : ascii :=
  if is_upper c || is_latin1_upper c then ascii_of_N (code_unit c + 32) else c.

Fixpoint map_chars (f : ascii → ascii) (s : string) : string :=
  match s with
  | EmptyString => EmptyString
  | String c s' => String (f c) (map_chars f s')
  end.

Definition toUpperCase : string → string := map_chars upper_char.
Definition toLowerCase : string → string := map_chars lower_char.

(** The longest prefix of [s] made of characters in [p]. *)
Fixpoint take_while (p : ascii → bool) (s : string) : string :=
  match s with
  | EmptyString => EmptyString
  | String c s' => if p c then String c (take_while p s') else EmptyString
  end.

(** [s.match(/\d+/)]: the leftmost maximal run of digits, [None] for
    JavaScript's [null] when [s] has no digit. *)
Fixpoint match_digits (s : string) : option string :=
  match s with
  | EmptyString => None
  | String c s' => if is_digit c then Some (take_while is_digit s) else match_digits s'
  end.

(** [s.split(/\s+/)]: the pieces between maximal runs of white space, the
    empty pieces at either end included.  [cur] is the piece being read,
    reversed; [in_sep] tells that the previous character was white space. *)
Fixpoint split_go (cur : string) (in_sep : bool) (s : string) : list string :=
  match s with
  | EmptyString => [String.rev cur]
  | String c s' =>
      if is_space c
      then (if in_sep then split_go cur true s'
            else String.rev cur :: split_go EmptyString true s')
      else split_go (String c cur) false s'
  end.

Definition split_spaces (s : string) : list string := split_go EmptyString false s.

(** [parts.join(sep)]. *)
Fixpoint join (sep : string) (parts : list string) : string :=
  match parts with
  | [] => EmptyString
  | [p] => p
  | p :: rest => p +:+ sep +:+ join sep rest
  end.

(** *** Numbers *)

(** A value of the number type that arithmetic on integer-valued doubles
    can produce. *)
Inductive Number : Type :=
| Finite (z : Z)            (* an integer-valued double *)
| Infinity (negative : bool)
| NaN.

(** The double nearest to the integer [z], ties to the even significand:
    integers up to 2^53 in absolute value are doubles, beyond them only 53
    significant bits are kept. *)
Definition round_to_double (z : Z) : Z :=
  let m := Z.abs z in
  if m <=? 2 ^ 53 then z
  else
    let e := Z.log2 m - 52 in
    let q := m / 2 ^ e in
    let r := m mod 2 ^ e in
    let half := 2 ^ (e - 1) in
    let q' :=
      if r <? half then q
      else if half <? r then q + 1
      else if Z.even q then q else q + 1 in
    Z.sgn z * (q' * 2 ^ e).

(** The double for the exact integer sum [s]: rounded, and an infinity when
    the rounded value is out of the range of the doubles. *)
Definition number_of_sum (s : Z) : Number :=
  let r := round_to_double s in
  if 2 ^ 1024 <=? Z.abs r then Infinity (r <? 0) else Finite r.

(** [a + b]. *)
Definition add (a b : Number) : Number :=
  match a, b with
  | NaN, _ | _, NaN => NaN
  | Infinity s, Infinity t => if Bool.eqb s t then Infinity s else NaN
  | Infinity s, Finite _ | Finite _, Infinity s => Infinity s
  | Finite x, Finite y => number_of_sum (x + y)
  end.

(** *** Property reads on plain objects *)

(** The members every plain object inherits from [Object.prototype]. *)
Definition object_prototype_names : list string :=
  [ "constructor"; "__proto__"; "hasOwnProperty"; "isPrototypeOf";
    "propertyIsEnumerable"; "toLocaleString"; "toString"; "valueOf";
    "__defineGetter__"; "__defineSetter__"; "__lookupGetter__";
    "__lookupSetter__" ].

Definition inherited (k : string) : bool :=
  bool_decide (k ∈ object_prototype_names).

(** The outcome of [o[k]] on an object whose own properties are [o]. *)
Inductive Property (V : Type) : Type :=
| Own (v : V)      (* an own property, holding [v] *)
| Inherited        (* a built-in function, or the prototype object itself *)
| Undefined.
Global Arguments Own {V} v.
Global Arguments Inherited {V}.
Global Arguments Undefined {V}.

Definition get {V} (o : gmap string V) (k : string) : Property V :=
  match o !! k with
  | Some v => Own v
  | None => if inherited k then Inherited else Undefined
  end.

(** [k in o]. *)
Definition has {V} (o : gmap string V) (k : string) : bool :=
  bool_decide (is_Some (o !! k)) || inherited k.

End Js.

(** ** The SKU preview of the product-creation form
  (src/pages/AddProductPage.tsx, [generateSkuPreview]) *)

Module AddProductPage.
Import Js.

(** A call either returns a string or throws. *)
Inductive Completion : Type :=
| Return (s : string)
| Throw_TypeError.

(** The object literal [sizeMap]. *)
Definition sizeMap : gmap string string :=
  list_to_map
    [ ("extra small", "XS"); ("small", "S"); ("medium", "M");
      ("large", "L"); ("extra large", "XL"); ("xxl", "XXL") ].

(** The class [[a-zA-Z0-9\s]] whose complement is stripped from the name. *)
Definition name_char (c : ascii) : bool := is_letter c || is_digit c || is_space c.

(** [cleaned.split(/\s+/).filter(Boolean)]. *)
Definition words_of (productName : string) : list string :=
  filter (λ w, w ≠ "") (split_spaces (keep_chars name_char productName)).

(** The body of [words.forEach], on the pair ([initials], [numbers]). *)
Definition scan_word (acc : string * string) (word : string) : string * string :=
  let initials :=
    match word with
    | String c _ => if is_letter c then acc.1 +:+ String c "" else acc.1
    | EmptyString => acc.1
    end in
  let numbers :=
    match match_digits word with
    | Some wordNumbers => acc.2 +:+ wordNumbers
    | None => acc.2
    end in
  (initials, numbers).

Definition initials_numbers (productName : string) : string * string :=
  foldl scan_word ("", "") (words_of productName).

(** [(initials + numbers).substring(0, 10)]. *)
Definition raw_code (productName : string) : string :=
  let '(initials, numbers) := initials_numbers productName in
  substring0 10 (initials +:+ numbers).

(** [code] after the padding, before it is uppercased. *)
Definition code_of (productName : string) : string :=
  let code := raw_code productName in
  if (String.length code <? 2)%nat then padEnd 4 "P" code else code.

(** [color.substring(0, 3).toUpperCase()]; both branches of the
    conditional on [color.length] take the same three characters. *)
Definition color_segment (color : string) : string :=
  toUpperCase (substring0 3 color).

(** [sizeCode.toUpperCase()].  A key of [sizeMap] gives its code; a name
    inherited from [Object.prototype] gives a value that is no string, and
    calling [toUpperCase] on it throws; otherwise the first digit run of
    [size], or its first three characters.  The codes of [sizeMap] are
    not empty, so [||] never discards one. *)
Definition size_segment (size : string) : Completion :=
  let sizeLower := trim (toLowerCase size) in
  match get sizeMap sizeLower with
  | Own sizeCode => Return (toUpperCase sizeCode)
  | Inherited => Throw_TypeError
  | Undefined =>
      Return (toUpperCase (default (substring0 3 size) (match_digits size)))
  end.

(** [if (x)] on an optional string: neither [undefined] nor [''] . *)
Definition provided (x : option string) : option string :=
  match x with
  | Some s => if is_empty s then None else Some s
  | None => None
  end.

Definition generateSkuPreview
    (productName : string) (color size : option string) : Completion :=
  if is_empty (trim productName) then Return "PROD" else
  let parts := [toUpperCase (code_of productName)] in
  let parts :=
    match provided color with
    | Some c => parts ++ [color_segment c]
    | None => parts
    end in
  match provided size with
  | Some s =>
      match size_segment s with
      | Return seg => Return (join "-" (parts ++ [seg]))
      | Throw_TypeError => Throw_TypeError
      end
  | None => Return (join "-" parts)
  end.

End AddProductPage.

(** ** The product listing
  (the ProductsPage component of src/pages/LoginPage.tsx)

  The component keeps three pieces of React state, [expandedProducts],
  [loadingInventory] and [inventoryCache].  An event handler runs to
  completion on the single UI thread and reads the state of the latest
  render; [toggleExpand] suspends only at [await inventoryApi.getBatch],
  and its continuation runs, again to completion, when the request
  settles.  The state of the model is therefore the React state together
  with the list of suspended [toggleExpand] calls, each holding what its
  closure captured before the [await]. *)

Module ProductsPage.
Import Js.

Record ProductVariant : Type := {
  sku : string;
  color : option string;
  size : option string;
  initial_stock : option Z;
}.

Record InventoryData : Type := {
  inv_sku : string;
  quantityAvailable : Z;
  quantityReserved : Z;
}.

(** *** [StockBadge] *)

(** The badge rendered for a quantity: its [variant] and what it shows. *)
Inductive Badge : Type :=
| OutOfStock                  (* variant "error",   text "Out of Stock" *)
| Low (quantity : Z)          (* variant "warning", text "Low (quantity)" *)
| InStock (quantity : Z).     (* variant "success", text "quantity" *)

Definition StockBadge (quantity : Z) : Badge :=
  if quantity =? 0 then OutOfStock
  else if quantity <? 10 then Low quantity
  else InStock quantity.

(** *** Reading the cache *)

(** [!!x] for the value of a property read whose own values are objects. *)
Definition truthy {V} (p : Property V) : bool :=
  match p with
  | Own _ | Inherited => true
  | Undefined => false
  end.

(** [inv?.quantityAvailable || 0]: only an own record has the field, and
    [||] replaces a zero by [0]. *)
Definition available_or_0 (inv : Property InventoryData) : Z :=
  match inv with
  | Own r => if quantityAvailable r =? 0 then 0 else quantityAvailable r
  | Inherited | Undefined => 0
  end.

Definition getTotalStock
    (inventoryCache : gmap string InventoryData) (variants : list ProductVariant) : Number :=
  if (length variants =? 0)%nat then Finite 0
  else foldl (λ sum variant,
                add sum (Finite (available_or_0 (get inventoryCache (sku variant)))))
             (Finite 0) variants.

Definition hasInventoryLoaded
    (inventoryCache : gmap string InventoryData) (variants : list ProductVariant) : bool :=
  if (length variants =? 0)%nat then true
  else forallb (λ v, has inventoryCache (sku v)) variants.

(** *** [toggleExpand] *)

(** [variants.filter((v) => v.sku && !inventoryCache[v.sku]).map((v) => v.sku)] *)
Definition needs_fetch (inventoryCache : gmap string InventoryData) (v : ProductVariant) : bool :=
  negb (is_empty (sku v)) && negb (truthy (get inventoryCache (sku v))).

Definition skusToFetch
    (inventoryCache : gmap string InventoryData) (variants : list ProductVariant)
    : list string :=
  sku <$> List.filter (needs_fetch inventoryCache) variants.

(** A [toggleExpand] call suspended at [await inventoryApi.getBatch]. *)
Record Suspended : Type := {
  productId : string;
  requested : list string;      (* the argument [skusToFetch] of [getBatch] *)
  newExpanded : gset string;    (* the local [newExpanded] of the call *)
}.

Record State : Type := {
  expandedProducts : gset string;
  loadingInventory : gset string;
  inventoryCache : gmap string InventoryData;
  inFlight : list Suspended;
}.

Definition initial : State :=
  {| expandedProducts := ∅; loadingInventory := ∅; inventoryCache := ∅; inFlight := [] |}.

(** The synchronous part of [toggleExpand]: the new state and the
    arguments of the [getBatch] calls it issued. *)
Definition toggleExpand (st : State) (pid : string) (variants : list ProductVariant)
    : State * list (list string) :=
  if bool_decide (pid ∈ expandedProducts st) then
    (* Collapse *)
    ({| expandedProducts := expandedProducts st ∖ {[pid]};
        loadingInventory := loadingInventory st;
        inventoryCache := inventoryCache st;
        inFlight := inFlight st |}, [])
  else
    (* Expand and fetch inventory if not cached *)
    let expanded := {[pid]} ∪ expandedProducts st in
    let skus := skusToFetch (inventoryCache st) variants in
    if (0 <? length skus)%nat then
      ({| expandedProducts := expandedProducts st;
          loadingInventory := {[pid]} ∪ loadingInventory st;
          inventoryCache := inventoryCache st;
          inFlight := inFlight st ++
            [{| productId := pid; requested := skus; newExpanded := expanded |}] |},
       [skus])
    else
      ({| expandedProducts := expanded;
          loadingInventory := loadingInventory st;
          inventoryCache := inventoryCache st;
          inFlight := inFlight st |}, []).

(** The continuation of the [i]-th suspended call when its request settles:
    [Some inventoryData] when the promise resolves, [None] when it rejects.
    [setInventoryCache] and [setLoadingInventory] update the current state,
    [setExpandedProducts(newExpanded)] installs the set computed before the
    [await]. *)
Definition settle (st : State) (i : nat) (outcome : option (gmap string InventoryData))
    : option State :=
  call ← inFlight st !! i;
  Some {| expandedProducts := newExpanded call;
          loadingInventory := loadingInventory st ∖ {[productId call]};
          inventoryCache :=
            match outcome with
            | Some inventoryData => inventoryData ∪ inventoryCache st
            | None => inventoryCache st
            end;
          inFlight := delete i (inFlight st) |}.

(** *** The event loop *)

Inductive Event : Type :=
| Toggle (pid : string) (variants : list ProductVariant)
| Resolve (i : nat) (inventoryData : gmap string InventoryData)
| Reject (i : nat).

Definition step (st : State) (e : Event) : option (State * list (list string)) :=
  match e with
  | Toggle pid variants => Some (toggleExpand st pid variants)
  | Resolve i inventoryData => st' ← settle st i (Some inventoryData); Some (st', [])
  | Reject i => st' ← settle st i None; Some (st', [])
  end.

(** Run a sequence of events, collecting the network calls in order. *)
Fixpoint run (st : State) (es : list Event) : option (State * list (list string)) :=
  match es with
  | [] => Some (st, [])
  | e :: es' =>
      '(st1, calls1) ← step st e;
      '(st2, calls2) ← run st1 es';
      Some (st2, calls1 ++ calls2)
  end.

Inductive reachable : State → Prop :=
| reachable_initial : reachable initial
| reachable_step st e st' calls :
    reachable st → step st e = Some (st', calls) → reachable st'.

(** The number of suspended calls whose request names the SKU [s]. *)
Definition outstanding (st : State) (s : string) : nat :=
  length (List.filter (λ call, bool_decide (s ∈ requested call)) (inFlight st)).

(** A variant that has only a SKU. *)
Definition variant (s : string) : ProductVariant :=
  {| sku := s; color := None; size := None; initial_stock := None |}.

(** Every suspended call has put its own product into the set it will
    install, and asked for at least one SKU. *)
Definition call_ok (call : Suspended) : Prop :=
  productId call ∈ newExpanded call ∧ requested call ≠ [].

(** An inventory record of the SKU [s]. *)
Definition record (s : string) (available reserved : Z) : InventoryData :=
  {| inv_sku := s; quantityAvailable := available; quantityReserved := reserved |}.

(** *** The specification's aggregate *)

(** [totalStock] in the specification's words: the sum over the variants of the
    cached available quantity, a missing entry counting for 0. *)
Definition cached_available (cache : gmap string InventoryData) (s : string) : Z :=
  match cache !! s with
  | Some r => quantityAvailable r
  | None => 0
  end.

Fixpoint sum_available (cache : gmap string InventoryData) (variants : list ProductVariant) : Z :=
  match variants with
  | [] => 0
  | v :: rest => cached_available cache (sku v) + sum_available cache rest
  end.

(** The sum of the absolute values of the same quantities: while it is at
    most 2^53, every partial sum is an integer that the doubles hold. *)
Fixpoint sum_abs_available
    (cache : gmap string InventoryData) (variants : list ProductVariant) : Z :=
  match variants with
  | [] => 0
  | v :: rest => Z.abs (cached_available cache (sku v)) + sum_abs_available cache rest
  end.

End ProductsPage.

(** ** The rest of the product-creation form
    (src/pages/AddProductPage.tsx: the variant list, its SKU previews and
    [handleSubmit]) *)

Module AddProductForm.
Import Js AddProductPage.

(** [interface Variant]; [generated_sku] is optional. *)
Record Variant : Type := {
  id : string;
  color : string;
  size : string;
  initial_stock : Z;
  generated_sku : option string;
}.

(** [{ ...v, generated_sku: generateSkuPreview(name, v.color, v.size) }];
    [None] when [generateSkuPreview] throws. *)
Definition regenerate (name : string) (v : Variant) : option Variant :=
  match generateSkuPreview name (Some (color v)) (Some (size v)) with
  | Return preview =>
      Some {| id := id v; color := color v; size := size v;
              initial_stock := initial_stock v; generated_sku := Some preview |}
  | Throw_TypeError => None
  end.

(** The effect on [formData.name]: [prev.map] over the variants; a throw in
    the callback aborts the whole update. *)
Definition previewEffect (name : string) (variants : list Variant) : option (list Variant) :=
  mapM (regenerate name) variants.

(** [addVariant]; [now] is [Date.now().toString()]. *)
Definition addVariant (name now : string) (variants : list Variant) : option (list Variant) :=
  match generateSkuPreview name (Some "") (Some "") with
  | Return preview =>
      Some (variants ++
            [{| id := now; color := ""; size := ""; initial_stock := 0;
                generated_sku := Some preview |}])
  | Throw_TypeError => None
  end.

Definition removeVariant (id0 : string) (variants : list Variant) : list Variant :=
  filter (λ v, id v ≠ id0) variants.

(** The [(field, value)] pairs the form passes to [updateVariant]: the
    colour input, the size input and the stock input, the last one through
    [parseInt(e.target.value) || 0]. *)
Inductive FieldValue : Type :=
| Color (value : string)
| Size (value : string)
| InitialStock (value : Z).

(** [{ ...v, [field]: value }]. *)
Definition assign (v : Variant) (fv : FieldValue) : Variant :=
  match fv with
  | Color value =>
      {| id := id v; color := value; size := size v;
         initial_stock := initial_stock v; generated_sku := generated_sku v |}
  | Size value =>
      {| id := id v; color := color v; size := value;
         initial_stock := initial_stock v; generated_sku := generated_sku v |}
  | InitialStock value =>
      {| id := id v; color := color v; size := size v;
         initial_stock := value; generated_sku := generated_sku v |}
  end.

Definition updateVariant
    (name id0 : string) (fv : FieldValue) (variants : list Variant)
    : option (list Variant) :=
  mapM (λ v,
          if decide (id v = id0) then
            let updated := assign v fv in
            match fv with
            | Color _ | Size _ => regenerate name updated
            | InitialStock _ => Some updated
            end
          else Some v)
       variants.

(** *** The form as a state machine *)

Record Form : Type := {
  name : string;
  variants : list Variant;
}.

Definition empty_form : Form := {| name := ""; variants := [] |}.

Inductive FormEvent : Type :=
| ChangeName (value : string)          (* typing in the name input *)
| AddVariant (now : string)
| RemoveVariant (id0 : string)
| UpdateVariant (id0 : string) (fv : FieldValue).

(** One event; [None] when a state update throws.  The effect runs after
    the render in which [formData.name] changed. *)
Definition form_step (f : Form) (e : FormEvent) : option Form :=
  match e with
  | ChangeName value =>
      if decide (value = name f) then Some f
      else vs ← previewEffect value (variants f); Some {| name := value; variants := vs |}
  | AddVariant now =>
      vs ← addVariant (name f) now (variants f); Some {| name := name f; variants := vs |}
  | RemoveVariant id0 =>
      Some {| name := name f; variants := removeVariant id0 (variants f) |}
  | UpdateVariant id0 fv =>
      vs ← updateVariant (name f) id0 fv (variants f); Some {| name := name f; variants := vs |}
  end.

Fixpoint form_run (f : Form) (es : list FormEvent) : option Form :=
  match es with
  | [] => Some f
  | e :: es' => f' ← form_step f e; form_run f' es'
  end.

(** A size on which the lookup in the size table hits an inherited member. *)
Definition bad_size (s : string) : Prop :=
  trim (toLowerCase s) = "constructor" ∨ trim (toLowerCase s) = "__proto__".

(** An event that does not type such a size. *)
Definition plain_event (e : FormEvent) : Prop :=
  match e with
  | UpdateVariant _ (Size value) => ¬ bad_size value
  | _ => True
  end.

(** The preview shown for [v] is the one computed from the current name. *)
Definition in_sync (name : string) (v : Variant) : Prop :=
  ∃ preview,
    generateSkuPreview name (Some (color v)) (Some (size v)) = Return preview ∧
    generated_sku v = Some preview.

(** *** Comma-separated lists *)

(** [s.split(',')] for a one-character separator. *)
Fixpoint split_char (sep : ascii) (s : string) : list string :=
  match s with
  | EmptyString => [EmptyString]
  | String c s' =>
      if decide (c = sep) then EmptyString :: split_char sep s'
      else match split_char sep s' with
           | piece :: pieces => String c piece :: pieces
           | [] => [String c EmptyString]
           end
  end.

(** [s ? s.split(',').map((x) => x.trim()).filter(Boolean) : []]. *)
Definition parseList (s : string) : list string :=
  if is_empty s then []
  else filter (λ x, x ≠ "") (trim <$> split_char "," s).

(** *** [handleSubmit] *)

Record FormData : Type := {
  fd_name : string;
  fd_description : string;
  fd_price : string;
  fd_brand : string;
  fd_department : string;
  fd_category : string;
  fd_subcategory : string;
  fd_product_type : string;
  fd_images : string;
  fd_tags : string;
  fd_specifications : gmap string string;
  fd_is_active : bool;
}.

(** [s || undefined]. *)
Definition or_undefined (s : string) : option string :=
  if is_empty s then None else Some s.

Record VariantData : Type := {
  vd_color : option string;
  vd_size : option string;
  vd_initial_stock : Z;
}.

Record Taxonomy : Type := {
  department : option string;
  category : option string;
  subcategory : option string;
  product_type : option string;
}.

(** The loop over the variants: the message of the first check that fails. *)
Fixpoint validateVariants (variants : list Variant) : option string :=
  match variants with
  | [] => None
  | variant :: rest =>
      if is_empty (color variant) && is_empty (size variant)
      then Some "Each variant must have at least color or size specified"
      else if initial_stock variant <? 0
      then Some "Initial stock cannot be negative"
      else validateVariants rest
  end.

(** A variant that passes the loop. *)
Definition variant_ok (v : Variant) : Prop :=
  (color v ≠ "" ∨ size v ≠ "") ∧ 0 ≤ initial_stock v.

Section Submit.

(** [parseFloat] yields a floating-point number; the form only compares it
    with zero and passes it on. *)
Variable Number : Type.
Variable parseFloat : string → Number.
Variable le_zero : Number → bool.

Record ProductData : Type := {
  pd_name : string;
  pd_description : string;
  pd_price : Number;
  pd_brand : option string;
  pd_taxonomy : Taxonomy;
  pd_images : list string;
  pd_tags : list string;
  pd_variants : list VariantData;
  pd_specifications : gmap string string;
  pd_status : string;
}.

(** What [handleSubmit] does before the request: it either shows a
    validation message or calls [productsApi.create] with the payload. *)
Inductive Submission : Type :=
| Rejected (message : string)
| Create (productData : ProductData).

Definition handleSubmit (formData : FormData) (variants : list Variant) : Submission :=
  if is_empty (trim (fd_name formData)) then Rejected "Product name is required"
  else if is_empty (fd_price formData) || le_zero (parseFloat (fd_price formData))
  then Rejected "Valid price is required"
  else if (length variants =? 0)%nat then Rejected "At least one variant is required"
  else
    match validateVariants variants with
    | Some message => Rejected message
    | None =>
        Create
          {| pd_name := trim (fd_name formData);
             pd_description := trim (fd_description formData);
             pd_price := parseFloat (fd_price formData);
             pd_brand := or_undefined (trim (fd_brand formData));
             pd_taxonomy :=
               {| department := or_undefined (fd_department formData);
                  category := or_undefined (fd_category formData);
                  subcategory := or_undefined (fd_subcategory formData);
                  product_type := or_undefined (fd_product_type formData) |};
             pd_images := parseList (fd_images formData);
             pd_tags := parseList (fd_tags formData);
             pd_variants :=
               (λ v, {| vd_color := or_undefined (color v);
                        vd_size := or_undefined (size v);
                        vd_initial_stock := initial_stock v |}) <$> variants;
             pd_specifications := fd_specifications formData;
             pd_status := "active" |}
    end.

End Submit.

Global Arguments pd_name {Number} _.
Global Arguments pd_description {Number} _.
Global Arguments pd_price {Number} _.
Global Arguments pd_brand {Number} _.
Global Arguments pd_taxonomy {Number} _.
Global Arguments pd_images {Number} _.
Global Arguments pd_tags {Number} _.
Global Arguments pd_variants {Number} _.
Global Arguments pd_specifications {Number} _.
Global Arguments pd_status {Number} _.
Global Arguments Rejected {Number} message.
Global Arguments Create {Number} productData.
Global Arguments handleSubmit {Number} parseFloat le_zero formData variants.

(** A piece of a parsed list: not empty, no comma, no white space at
    either end. *)
Definition clean_item (x : string) : Prop :=
  x ≠ "" ∧ trim x = x ∧ all_chars (λ c, negb (bool_decide (c = ","%char))) x = true.

(** [A-Z0-9], the characters of a base segment. *)
Definition base_char (c : ascii) : bool := is_upper c || is_digit c.

(** Equality up to the case of the ASCII letters. *)
Definition same_up_to_case (s t : string) : Prop :=
  map_chars upper_char s = map_chars upper_char t.

End AddProductForm.

(** ** The rest of the product listing
    (src/pages/LoginPage.tsx, ProductsPage: the filters, the category
    choices and the variant rows) *)

Module ProductsView.
Import Js ProductsPage.

(** The fields of a listed product that the functions below read. *)
Record Product : Type := {
  p_id : string;
  p_name : string;
  p_description : string;
  p_sku : string;
  p_category : option string;
  p_status : string;
}.

(** [s.startsWith(t)]. *)
Fixpoint starts_with (s t : string) : bool :=
  match t, s with
  | EmptyString, _ => true
  | String b t', String a s' => bool_decide (a = b) && starts_with s' t'
  | String _ _, EmptyString => false
  end.

(** [s.includes(t)]. *)
Fixpoint includes (s t : string) : bool :=
  starts_with s t ||
  match s with
  | EmptyString => false
  | String _ s' => includes s' t
  end.

(** The callback of the search filter. *)
Definition matches_search (searchTerm : string) (product : Product) : bool :=
  includes (toLowerCase (p_name product)) (toLowerCase searchTerm) ||
  includes (toLowerCase (p_description product)) (toLowerCase searchTerm) ||
  includes (toLowerCase (p_sku product)) (toLowerCase searchTerm).

(** [filterProducts]: the list it passes to [setFilteredProducts]. *)
Definition filterProducts
    (products : list Product) (searchTerm categoryFilter statusFilter : string)
    : list Product :=
  let filtered := products in
  let filtered :=
    if is_empty searchTerm then filtered
    else List.filter (matches_search searchTerm) filtered in
  let filtered :=
    if bool_decide (categoryFilter ≠ "all")
    then List.filter (λ product, bool_decide (p_category product = Some categoryFilter)) filtered
    else filtered in
  let filtered :=
    if bool_decide (statusFilter ≠ "all")
    then List.filter (λ product, bool_decide (p_status product = statusFilter)) filtered
    else filtered in
  filtered.

(** [Array.from(new Set(xs))]: the elements in the order of their first
    occurrence. *)
Definition insertion_order (xs : list string) : list string :=
  foldl (λ seen x, if bool_decide (x ∈ seen) then seen else seen ++ [x]) [] xs.

(** [products.map((p) => p.category).filter(Boolean)]. *)
Definition categories (products : list Product) : list string :=
  omap (λ p, c ← p_category p; if is_empty c then None else Some c) products.

Definition getUniqueCategories (products : list Product) : list string :=
  insertion_order (categories products).

(** [inv?.quantityReserved || 0]. *)
Definition reserved_or_0 (inv : Property InventoryData) : Z :=
  match inv with
  | Own r => if quantityReserved r =? 0 then 0 else quantityReserved r
  | Inherited | Undefined => 0
  end.

(** [formatVariantLabel]. *)
Definition formatVariantLabel (variant : ProductVariant) : string :=
  let parts := [] in
  let parts :=
    match AddProductPage.provided (color variant) with
    | Some c => parts ++ [c]
    | None => parts
    end in
  let parts :=
    match AddProductPage.provided (size variant) with
    | Some s => parts ++ [s]
    | None => parts
    end in
  if (0 <? length parts)%nat then join " / " parts else sku variant.

(** What an expanded variant row shows. *)
Record VariantRow : Type := {
  row_label : string;
  row_sku : string;
  row_badge : Badge;
  row_reserved : option Z;     (* the "n reserved" note, when there is one *)
  row_available : bool;        (* "Available" rather than "Unavailable" *)
}.

Definition variantRow
    (inventoryCache : gmap string InventoryData) (variant : ProductVariant) : VariantRow :=
  let inv := get inventoryCache (sku variant) in
  let stock := available_or_0 inv in
  let reserved := reserved_or_0 inv in
  {| row_label := formatVariantLabel variant;
     row_sku := sku variant;
     row_badge := StockBadge stock;
     row_reserved := if 0 <? reserved then Some reserved else None;
     row_available := 0 <? stock |}.

(** *** Kinds of events *)

Definition is_toggle (e : Event) : bool :=
  match e with Toggle _ _ => true | _ => false end.

Definition is_settle (e : Event) : bool := negb (is_toggle e).

(** The SKUs a response of the run [es] carries. *)
Definition answered (es : list Event) (s : string) : Prop :=
  ∃ i inventoryData, Resolve i inventoryData ∈ es ∧ is_Some (inventoryData !! s).

End ProductsView.

(** ** Signing in
    (src/services/api.ts, [authApi.login]; src/pages/LoginPage.tsx,
    [handleSubmit] of the LoginPage component)

    The request itself is the environment's: its outcome is an input.  The
    logger calls, [dispatch] and [navigate] are taken not to throw. *)

Module Auth.
Import Js.

(** [x || y] on optional strings: [undefined] and [''] are falsy. *)
Definition truthy_string (x : option string) : option string :=
  match x with
  | Some s => if is_empty s then None else Some s
  | None => None
  end.

Definition or_else (x : option string) (fallback : string) : string :=
  default fallback (truthy_string x).

(** The user object of the auth service. *)
Record BackendUser : Type := {
  bu__id : option string;
  bu_id : option string;
  bu_firstName : option string;
  bu_lastName : option string;
  bu_email : option string;
  bu_roles : option (list string);
  bu_isActive : option bool;
  bu_createdAt : option string;
  bu_lastLoginAt : option string;
}.

Record FrontendUser : Type := {
  fu_id : option string;
  fu_firstName : option string;
  fu_lastName : option string;
  fu_email : option string;
  fu_role : string;
  fu_roles : list string;
  fu_status : string;
  fu_createdAt : string;
  fu_lastLogin : string;
}.

Record LoginData : Type := {
  ld_user : option FrontendUser;
  ld_token : string;
  ld_refreshToken : string;
}.

Record ApiResponse : Type := {
  success : bool;
  data : LoginData;
  message : option string;
}.

(** What the failed request carries: [error.response] with its status and
    the two message fields of its body, and [error.code]. *)
Record ErrorResponse : Type := {
  er_status : Z;
  er_data_error_message : option string;
  er_data_message : option string;
}.

Record RequestError : Type := {
  re_response : option ErrorResponse;
  re_code : option string;
  re_message : option string;
}.

(** The outcome of [authApiClient.post('/api/auth/login', ...)]: a body with
    its [token], [user], [refreshToken] and [error.message] fields, or a
    rejection. *)
Inductive PostOutcome : Type :=
| PostResolved (token : option string) (user : option BackendUser)
               (refreshToken : option string) (error_message : option string)
| PostRejected (error : RequestError).

(** [now] is [new Date().toISOString()]. *)
Definition frontendUser (now : string) (backendUser : BackendUser) : FrontendUser :=
  {| fu_id := match truthy_string (bu__id backendUser) with
              | Some i => Some i
              | None => bu_id backendUser
              end;
     fu_firstName := bu_firstName backendUser;
     fu_lastName := bu_lastName backendUser;
     fu_email := bu_email backendUser;
     fu_role :=
       match bu_roles backendUser with
       | Some roles => if bool_decide ("admin" ∈ roles) then "admin" else "customer"
       | None => "customer"
       end;
     fu_roles := default [] (bu_roles backendUser);
     fu_status := if bool_decide (bu_isActive backendUser = Some false)
                  then "inactive" else "active";
     fu_createdAt := or_else (bu_createdAt backendUser) now;
     fu_lastLogin := or_else (bu_lastLoginAt backendUser) now |}.

Definition no_data : LoginData :=
  {| ld_user := None; ld_token := ""; ld_refreshToken := "" |}.

(** The message chosen in the [catch] branch of [login]. *)
Definition userMessage (error : RequestError) : string :=
  match re_response error with
  | None =>
      if bool_decide (re_code error = Some "ERR_NETWORK") ||
         bool_decide (re_code error = Some "ECONNABORTED")
      then "Cannot connect to server. Please check if the service is running."
      else "Login failed"
  | Some response =>
      if (er_status response =? 502) || (er_status response =? 503)
      then "Backend service unavailable. The authentication service may be down."
      else if er_status response =? 401
      then or_else (er_data_error_message response) "Invalid email or password"
      else match truthy_string (er_data_error_message response) with
           | Some m => m
           | None =>
               match truthy_string (er_data_message response) with
               | Some m => m
               | None => "Login failed"
               end
           end
  end.

Definition login (now : string) (outcome : PostOutcome) : ApiResponse :=
  match outcome with
  | PostResolved token user refreshToken error_message =>
      match truthy_string token, user with
      | Some t, Some backendUser =>
          {| success := true;
             data := {| ld_user := Some (frontendUser now backendUser);
                        ld_token := t;
                        ld_refreshToken := or_else refreshToken "" |};
             message := None |}
      | _, _ =>
          {| success := false; data := no_data;
             message := Some (or_else error_message "Invalid login response from server") |}
      end
  | PostRejected error =>
      {| success := false; data := no_data; message := Some (userMessage error) |}
  end.

(** What [handleSubmit] of the login page does, in order. *)
Inductive Effect : Type :=
| Dispatch_loginStart
| Call_login (email password : string)
| Dispatch_loginSuccess (payload : LoginData)
| Dispatch_loginFailure (error : string)
| Navigate (path : string).

(** How the awaited [authApi.login] call ends for the page. *)
Inductive LoginResult : Type :=
| Returned (response : ApiResponse)
| Threw (response_data_message error_message : option string).

Definition handleSubmit (email password : string) (result : LoginResult) : list Effect :=
  if is_empty email || is_empty password then
    [Dispatch_loginFailure "Please enter both email and password"]
  else
    [Dispatch_loginStart; Call_login email password] ++
    match result with
    | Returned response =>
        if success response
        then [Dispatch_loginSuccess (data response); Navigate "/dashboard"]
        else [Dispatch_loginFailure (or_else (message response) "Login failed")]
    | Threw response_data_message error_message =>
        [Dispatch_loginFailure
           (match truthy_string response_data_message with
            | Some m => m
            | None => or_else error_message "Login failed. Please try again."
            end)]
    end.

(** The page wired to [authApi.login]. *)
Definition submit (email password now : string) (outcome : PostOutcome) : list Effect :=
  handleSubmit email password (Returned (login now outcome)).

End Auth.

(** * Properties *)

(** ** Strings *)

Section StringFacts.
Import Js.

Lemma is_empty_true (s : string) : is_empty s = true ↔ s = "".
Proof. destruct s; simpl; split; congruence. Qed.

Lemma trimStart_blank (s : string) :
  all_chars is_space s = true → trimStart s = "".
Proof.
  induction s as [|c s IH]; simpl; [done|].
  intros [Hc Hs]%andb_true_iff. rewrite Hc. auto.
Qed.

Lemma trimEnd_blank (s : string) :
  trimEnd s = "" → all_chars is_space s = true.
Proof.
  induction s as [|c s IH]; simpl; [done|].
  destruct (is_space c) eqn:Hc; simpl; [|done].
  destruct (is_empty (trimEnd s)) eqn:He; [|done].
  intros _. apply IH. by apply is_empty_true.
Qed.

Lemma trimStart_head (s : string) :
  match trimStart s with
  | String c _ => is_space c = false
  | EmptyString => all_chars is_space s = true
  end.
Proof.
  induction s as [|c s IH]; simpl; [done|].
  destruct (is_space c) eqn:Hc; simpl; [|done].
  destruct (trimStart s); done.
Qed.

(** [trim] leaves nothing exactly of the strings made of white space. *)
Lemma trim_blank (s : string) :
  is_empty (trim s) = true ↔ all_chars is_space s = true.
Proof.
  rewrite is_empty_true. unfold trim. split.
  - intros H. pose proof (trimStart_head s) as Hh.
    destruct (trimStart s) as [|c r]; [done|].
    apply trimEnd_blank in H. simpl in H.
    apply andb_true_iff in H as [H _]. congruence.
  - intros H. by rewrite trimStart_blank.
Qed.

Lemma app_cons (c : ascii) (s t : string) :
  String c s +:+ t = String c (s +:+ t).
Proof. reflexivity. Qed.

Lemma string_length_app (s t : string) :
  String.length (s +:+ t) = (String.length s + String.length t)%nat.
Proof. induction s as [|c s IH]; [done|]. rewrite app_cons. simpl. by rewrite IH. Qed.

Lemma length_repeat_char (c : ascii) (n : nat) :
  String.length (repeat_char c n) = n.
Proof. induction n; simpl; [done|]. by f_equal. Qed.

Lemma length_map_chars (f : ascii → ascii) (s : string) :
  String.length (map_chars f s) = String.length s.
Proof. induction s; simpl; [done|]. by f_equal. Qed.

Lemma map_chars_app (f : ascii → ascii) (s t : string) :
  map_chars f (s +:+ t) = map_chars f s +:+ map_chars f t.
Proof. induction s as [|c s IH]; [done|]. rewrite app_cons. simpl. by rewrite IH. Qed.

Lemma toUpperCase_repeat_P (n : nat) :
  toUpperCase (repeat_char "P" n) = repeat_char "P" n.
Proof.
  unfold toUpperCase. induction n as [|n IH]; [done|].
  change (String (upper_char "P") (map_chars upper_char (repeat_char "P" n))
          = String "P" (repeat_char "P" n)).
  by rewrite IH.
Qed.

Lemma toUpperCase_padEnd (s : string) :
  toUpperCase (padEnd 4 "P" s) =
  toUpperCase s +:+ repeat_char "P" (4 - String.length s).
Proof.
  unfold padEnd, toUpperCase. rewrite map_chars_app.
  f_equal. apply toUpperCase_repeat_P.
Qed.

End StringFacts.

(** ** The SKU preview *)

Section SkuPreview.
Import Js AddProductPage.

(** A blank name never reaches the code computation. *)
Lemma generateSkuPreview_blank (productName : string) (color size : option string) :
  is_empty (trim productName) = true →
  generateSkuPreview productName color size = Return "PROD".
Proof. unfold generateSkuPreview. by intros ->. Qed.

(** Without colour and size the preview is the uppercased code. *)
Lemma generateSkuPreview_base (productName : string) :
  is_empty (trim productName) = false →
  generateSkuPreview productName None None = Return (toUpperCase (code_of productName)).
Proof. unfold generateSkuPreview. by intros ->. Qed.

(** C2, as the specification states it, fails: the hyphen of "T-Shirt" is
    stripped before the name is split into words, so "TShirt" is one word
    and contributes the single initial T; the preview is not
    "CCTS2-RED-L". *)
Lemma generateSku_example_not_CCTS2 :
  initials_numbers "Classic Cotton T-Shirt 2" ≠ ("CCTS", "2") ∧
  generateSkuPreview "Classic Cotton T-Shirt 2" (Some "Red") (Some "Large")
    ≠ Return "CCTS2-RED-L".
Proof. split; vm_compute; discriminate. Qed.

(** C2 (amended): for the product name "Classic Cotton T-Shirt 2" with
    colour "Red" and size "Large", the words are Classic, Cotton, TShirt
    and 2, the initials are "CCT" and the numbers "2", the base segment is
    "CCT2", the colour segment "RED", the size segment "L", and the
    preview is "CCT2-RED-L". *)
Theorem generateSku_example_CCT2 :
  words_of "Classic Cotton T-Shirt 2" = ["Classic"; "Cotton"; "TShirt"; "2"] ∧
  initials_numbers "Classic Cotton T-Shirt 2" = ("CCT", "2") ∧
  toUpperCase (code_of "Classic Cotton T-Shirt 2") = "CCT2" ∧
  color_segment "Red" = "RED" ∧
  size_segment "Large" = Return "L" ∧
  generateSkuPreview "Classic Cotton T-Shirt 2" (Some "Red") (Some "Large")
    = Return "CCT2-RED-L".
Proof. repeat split; vm_compute; reflexivity. Qed.

(** C3, as the specification states it, fails: the empty name is caught by
    the guard on the trimmed name, and the preview is "PROD", a string
    without any padding character after the first. *)
Lemma generateSku_empty_not_PPPP :
  generateSkuPreview "" None None = Return "PROD" ∧
  generateSkuPreview "" None None ≠ Return "PPPP".
Proof. split; vm_compute; [reflexivity | discriminate]. Qed.

(** C3 (amended): the empty name gives "PROD"; for a name that is not
    blank, whenever the code computed from the initials and the numbers
    has fewer than 2 characters, it is right-padded with the character P
    to length 4 and uppercased, and with neither colour nor size that is
    the whole preview; so "!!!" gives "PPPP" and "a" gives "APPP". *)
Theorem generateSku_padding (productName : string) :
  is_empty (trim productName) = false →
  (String.length (raw_code productName) < 2)%nat →
  let base :=
    toUpperCase (raw_code productName)
      +:+ repeat_char "P" (4 - String.length (raw_code productName)) in
  toUpperCase (code_of productName) = base ∧
  generateSkuPreview productName None None = Return base ∧
  String.length base = 4%nat.
Proof.
  intros Hname Hlen base.
  assert (toUpperCase (code_of productName) = base) as Hbase.
  { unfold code_of. apply Nat.ltb_lt in Hlen. rewrite Hlen.
    apply toUpperCase_padEnd. }
  split; [done|]. split.
  - by rewrite generateSkuPreview_base, Hbase.
  - subst base. rewrite string_length_app, length_repeat_char.
    unfold toUpperCase. rewrite length_map_chars. lia.
Qed.

Lemma generateSku_padding_witness :
  generateSkuPreview "!!!" None None = Return "PPPP" ∧
  generateSkuPreview "a" None None = Return "APPP".
Proof.
  split.
  - refine (proj1 (proj2 (generateSku_padding "!!!" _ _))).
    + vm_compute; reflexivity.
    + vm_compute; lia.
  - refine (proj1 (proj2 (generateSku_padding "a" _ _))).
    + vm_compute; reflexivity.
    + vm_compute; lia.
Defined.

(** C10: whenever the product name is empty or consists only of white
    space, the preview is exactly "PROD", whatever the colour and the size:
    no colour segment, no size segment and no padding are applied, so
    generateSku("", "Red", "Large") is "PROD" and not "PPPP-RED-L". *)
Theorem generateSku_blank_name_PROD
    (productName : string) (color size : option string) :
  all_chars is_space productName = true →
  generateSkuPreview productName color size = Return "PROD" ∧
  generateSkuPreview productName color size ≠ Return "PPPP-RED-L".
Proof.
  intros Hblank%trim_blank.
  rewrite (generateSkuPreview_blank _ _ _ Hblank). split; [done | discriminate].
Qed.

Lemma generateSku_blank_name_PROD_witness :
  generateSkuPreview "" (Some "Red") (Some "Large") = Return "PROD" ∧
  generateSkuPreview "  " (Some "Red") (Some "Large") = Return "PROD".
Proof.
  split.
  - apply (generateSku_blank_name_PROD "" (Some "Red") (Some "Large")). reflexivity.
  - apply (generateSku_blank_name_PROD "  " (Some "Red") (Some "Large")).
    vm_compute; reflexivity.
Defined.

End SkuPreview.

(** ** Stock badge and aggregation *)

Section Aggregation.
Import Js ProductsPage.

(** C9: for every integer quantity ≥ 0, the badge is OutOfStock exactly
    when the quantity is 0, Low exactly when it is greater than 0 and less
    than 10, and InStock otherwise; in particular 0 is OutOfStock, 9 is Low
    and 10 is InStock. *)
Theorem StockBadge_classes (quantity : Z) :
  0 ≤ quantity →
  (StockBadge quantity = OutOfStock ↔ quantity = 0) ∧
  (StockBadge quantity = Low quantity ↔ 0 < quantity < 10) ∧
  (StockBadge quantity = InStock quantity ↔ ¬ (quantity = 0) ∧ ¬ (0 < quantity < 10)) ∧
  StockBadge 0 = OutOfStock ∧ StockBadge 9 = Low 9 ∧ StockBadge 10 = InStock 10.
Proof.
  intros Hq. unfold StockBadge.
  destruct (Z.eqb_spec quantity 0) as [->|Hne]; simpl.
  - repeat split; try done; lia.
  - destruct (Z.ltb_spec quantity 10) as [Hlt|Hge];
      repeat split; try done; try lia; intros; exfalso; lia.
Qed.

Lemma StockBadge_classes_witness :
  0 ≤ 9 ∧ (StockBadge 9 = Low 9 ↔ 0 < 9 < 10).
Proof.
  split; [lia|]. apply (StockBadge_classes 9). lia.
Defined.

Lemma available_or_0_get (cache : gmap string InventoryData) (s : string) :
  available_or_0 (get cache s) = cached_available cache s.
Proof.
  unfold get, cached_available. destruct (cache !! s) as [r|]; simpl.
  - destruct (Z.eqb_spec (quantityAvailable r) 0); congruence.
  - by destruct (inherited s).
Qed.

Lemma number_of_sum_exact (z : Z) :
  Z.abs z ≤ 2 ^ 53 → number_of_sum z = Finite z.
Proof.
  intros Hz. unfold number_of_sum, round_to_double.
  destruct (Z.leb_spec (Z.abs z) (2 ^ 53)) as [_|Hgt]; [|lia].
  destruct (Z.leb_spec (2 ^ 1024) (Z.abs z)) as [Hbig|_]; [|done].
  assert (2 ^ 53 < 2 ^ 1024) by (by apply Z.pow_lt_mono_r). lia.
Qed.

Lemma sum_abs_available_nonneg
    (cache : gmap string InventoryData) (variants : list ProductVariant) :
  0 ≤ sum_abs_available cache variants.
Proof. induction variants as [|v rest IH]; simpl; lia. Qed.

Lemma reduce_sum (cache : gmap string InventoryData) (variants : list ProductVariant) (sum : Z) :
  Z.abs sum + sum_abs_available cache variants ≤ 2 ^ 53 →
  foldl (λ sum variant, add sum (Finite (available_or_0 (get cache (sku variant)))))
        (Finite sum) variants
  = Finite (sum + sum_available cache variants).
Proof.
  revert sum. induction variants as [|v rest IH]; intros sum Hbound;
    cbn [foldl sum_available sum_abs_available add] in *.
  - by rewrite Z.add_0_r.
  - pose proof (sum_abs_available_nonneg cache rest) as Hrest.
    rewrite available_or_0_get, number_of_sum_exact by lia.
    rewrite IH by lia. f_equal. lia.
Qed.

(** C1, as the specification states it, fails: the total is accumulated in
    double-precision numbers, which hold every integer only up to 2^53.
    With X (available 2^53) and Y (available 1) both cached, the second
    addition rounds to the even neighbour and the total is 2^53, not the sum
    2^53 + 1. *)
Lemma getTotalStock_rounds_above_2_53 :
  getTotalStock (<["X" := record "X" (2 ^ 53) 0]> (<["Y" := record "Y" 1 0]> ∅))
                [variant "X"; variant "Y"] = Finite (2 ^ 53) ∧
  sum_available (<["X" := record "X" (2 ^ 53) 0]> (<["Y" := record "Y" 1 0]> ∅))
                [variant "X"; variant "Y"] = 2 ^ 53 + 1 ∧
  hasInventoryLoaded (<["X" := record "X" (2 ^ 53) 0]> (<["Y" := record "Y" 1 0]> ∅))
                [variant "X"; variant "Y"] = true.
Proof. repeat split; vm_compute; reflexivity. Qed.

(** C1 (amended): for every list of variants and every cache in which the
    absolute values of the variants' cached quantities add up to at most
    2^53, [getTotalStock] is the sum over the variants of the cached
    [quantityAvailable], a variant whose SKU is missing from the cache
    counting for 0, and it is 0 for the empty list; with X (available 5)
    and Y (available 3) cached the total is 8, and with Y absent it is 5
    while [hasInventoryLoaded] is false. *)
Theorem getTotalStock_sum (cache : gmap string InventoryData) (variants : list ProductVariant) :
  sum_abs_available cache variants ≤ 2 ^ 53 →
  getTotalStock cache variants = Finite (sum_available cache variants) ∧
  getTotalStock cache [] = Finite 0 ∧
  (∀ rx ry : Z,
     getTotalStock (<["X" := record "X" 5 rx]> (<["Y" := record "Y" 3 ry]> ∅))
                   [variant "X"; variant "Y"] = Finite 8 ∧
     hasInventoryLoaded (<["X" := record "X" 5 rx]> (<["Y" := record "Y" 3 ry]> ∅))
                   [variant "X"; variant "Y"] = true) ∧
  (∀ rx : Z,
     getTotalStock (<["X" := record "X" 5 rx]> ∅) [variant "X"; variant "Y"] = Finite 5 ∧
     hasInventoryLoaded (<["X" := record "X" 5 rx]> ∅) [variant "X"; variant "Y"] = false).
Proof.
  intros Hbound. split; [|split; [done|split]].
  - unfold getTotalStock. destruct variants as [|v rest]; [done|].
    change (length (v :: rest) =? 0)%nat with false. cbv iota.
    by rewrite reduce_sum.
  - intros rx ry. split; vm_compute; reflexivity.
  - intros rx. split; vm_compute; reflexivity.
Qed.

Lemma getTotalStock_sum_witness :
  sum_abs_available (<["X" := record "X" 5 2]> (<["Y" := record "Y" 3 0]> ∅))
                    [variant "X"; variant "Y"; variant "Z"] ≤ 2 ^ 53 ∧
  getTotalStock (<["X" := record "X" 5 2]> (<["Y" := record "Y" 3 0]> ∅))
                [variant "X"; variant "Y"; variant "Z"] = Finite 8.
Proof.
  assert (sum_abs_available (<["X" := record "X" 5 2]> (<["Y" := record "Y" 3 0]> ∅))
                            [variant "X"; variant "Y"; variant "Z"] ≤ 2 ^ 53) as Hbound.
  { vm_compute. discriminate. }
  split; [exact Hbound|].
  exact (proj1 (getTotalStock_sum
                  (<["X" := record "X" 5 2]> (<["Y" := record "Y" 3 0]> ∅))
                  [variant "X"; variant "Y"; variant "Z"] Hbound)).
Defined.

End Aggregation.

(** ** Expansion and the inventory cache *)

Section Expansion.
Import Js ProductsPage.

Implicit Types (st : State) (pid s : string) (variants : list ProductVariant).

Lemma needs_fetch_true (cache : gmap string InventoryData) (v : ProductVariant) :
  needs_fetch cache v = true ↔
  sku v ≠ "" ∧ cache !! sku v = None ∧ sku v ∉ object_prototype_names.
Proof.
  unfold needs_fetch, get, inherited.
  rewrite andb_true_iff, !negb_true_iff, <- not_true_iff_false, is_empty_true.
  destruct (cache !! sku v) as [r|]; simpl.
  - split; [intros [_ ?]; done | intros (_ & ? & _); done].
  - case_bool_decide as Hk; simpl.
    + split; [intros [_ ?]; done | intros (_ & _ & ?); done].
    + split; [intros [? _]; done | intros (? & _ & _); done].
Qed.

(** What [skusToFetch] lists: the SKUs of the variants that are not the
    empty string and whose read from the cache is [undefined]. *)
Lemma elem_of_skusToFetch (cache : gmap string InventoryData) variants s :
  s ∈ skusToFetch cache variants ↔
  s ∈ (sku <$> variants) ∧ s ≠ "" ∧ cache !! s = None ∧ s ∉ object_prototype_names.
Proof.
  unfold skusToFetch. rewrite !list_elem_of_fmap. split.
  - intros (v & -> & Hv). apply list_elem_of_In, filter_In in Hv as [Hv Hn].
    apply needs_fetch_true in Hn. split; [|done].
    exists v. split; [done|]. by apply list_elem_of_In.
  - intros ((v & -> & Hv) & Hn). exists v. split; [done|].
    apply list_elem_of_In, filter_In. split; [by apply list_elem_of_In|].
    by apply needs_fetch_true.
Qed.

Lemma toggleExpand_collapse st pid variants :
  pid ∈ expandedProducts st →
  toggleExpand st pid variants =
    ({| expandedProducts := expandedProducts st ∖ {[pid]};
        loadingInventory := loadingInventory st;
        inventoryCache := inventoryCache st;
        inFlight := inFlight st |}, []).
Proof. intros H. unfold toggleExpand. by rewrite bool_decide_eq_true_2. Qed.

Lemma toggleExpand_cached st pid variants :
  pid ∉ expandedProducts st →
  skusToFetch (inventoryCache st) variants = [] →
  toggleExpand st pid variants =
    ({| expandedProducts := {[pid]} ∪ expandedProducts st;
        loadingInventory := loadingInventory st;
        inventoryCache := inventoryCache st;
        inFlight := inFlight st |}, []).
Proof.
  intros H Hs. unfold toggleExpand. rewrite bool_decide_eq_false_2 by done.
  by rewrite Hs.
Qed.

Lemma toggleExpand_fetch st pid variants :
  pid ∉ expandedProducts st →
  skusToFetch (inventoryCache st) variants ≠ [] →
  toggleExpand st pid variants =
    ({| expandedProducts := expandedProducts st;
        loadingInventory := {[pid]} ∪ loadingInventory st;
        inventoryCache := inventoryCache st;
        inFlight := inFlight st ++
          [{| productId := pid;
              requested := skusToFetch (inventoryCache st) variants;
              newExpanded := {[pid]} ∪ expandedProducts st |}] |},
     [skusToFetch (inventoryCache st) variants]).
Proof.
  intros H Hs. unfold toggleExpand. rewrite bool_decide_eq_false_2 by done.
  destruct (skusToFetch (inventoryCache st) variants); done.
Qed.

(** [toggleExpand] never writes the cache. *)
Lemma toggleExpand_cache st pid variants :
  inventoryCache (toggleExpand st pid variants).1 = inventoryCache st.
Proof.
  unfold toggleExpand. case_bool_decide; [done|].
  by destruct (0 <? _)%nat.
Qed.

(** C4, as the specification states it, fails: a variant whose SKU is the
    empty string is in the requested set and not among the keys of the
    cache, so the missing set is not empty, yet the guard [v.sku &&]
    drops it and no request is made. *)
Lemma toggleExpand_empty_sku_not_fetched :
  (list_to_set (sku <$> [variant ""]) : gset string) ∖ dom (inventoryCache initial) ≠ ∅ ∧
  ("p" ∉ expandedProducts initial) ∧
  (toggleExpand initial "p" [variant ""]).2 = [].
Proof.
  split; [|split].
  - intros H. assert ("" ∈ (∅ : gset string)) as Hin; [|set_solver].
    rewrite <- H. simpl. set_solver.
  - simpl. set_solver.
  - vm_compute; reflexivity.
Qed.

(** Decide that a given string is no name of [Object.prototype]. *)
Ltac not_a_prototype_name :=
  match goal with
  | |- ?s ∉ Js.object_prototype_names =>
      apply (bool_decide_eq_false_1 (s ∈ Js.object_prototype_names));
      vm_compute; reflexivity
  end.

Lemma needs_fetch_ordinary (cache : gmap string InventoryData) (v : ProductVariant) :
  sku v ∉ object_prototype_names →
  needs_fetch cache v = true ↔ sku v ≠ "" ∧ cache !! sku v = None.
Proof. intros Hv. rewrite needs_fetch_true. tauto. Qed.

(** For SKUs that are no names of [Object.prototype], [skusToFetch] is the
    list of the non-empty SKUs that are no keys of the cache, in the order
    of the variants and with their repetitions. *)
Lemma skusToFetch_ordinary (cache : gmap string InventoryData) variants :
  Forall (λ v, sku v ∉ object_prototype_names) variants →
  skusToFetch cache variants
  = filter (λ s, s ≠ "" ∧ cache !! s = None) (sku <$> variants).
Proof.
  unfold skusToFetch. induction 1 as [|v vs Hv _ IH]; [done|].
  pose proof (needs_fetch_ordinary cache v Hv) as Hn.
  change (sku <$> v :: vs) with (sku v :: (sku <$> vs)).
  rewrite filter_cons. cbn [List.filter].
  destruct (needs_fetch cache v),
    (decide (sku v ≠ "" ∧ cache !! sku v = None)) as [Hd|Hd].
  - by rewrite fmap_cons, IH.
  - exfalso. apply Hd. by apply Hn.
  - exfalso. apply Hn in Hd. done.
  - exact IH.
Qed.

Lemma missing_as_set (cache : gmap string InventoryData) (skus : list string) :
  (list_to_set (filter (λ s, s ≠ "" ∧ cache !! s = None) skus) : gset string)
  = (list_to_set skus ∖ dom cache) ∖ {[""]}.
Proof.
  apply set_eq. intros s.
  rewrite elem_of_list_to_set, list_elem_of_filter, !elem_of_difference,
    elem_of_list_to_set, elem_of_singleton, not_elem_of_dom.
  tauto.
Qed.

(** C4 (amended): for every cache state and every list of variants whose
    SKUs are ordinary strings (none of them the name of a member that
    objects inherit from Object.prototype; nothing is stated about such
    SKUs), [toggleExpand] on expansion computes the missing list as the
    requested SKUs that are not the empty string minus the keys of the
    cache, in the order of the variants; if the missing list is empty it
    performs no network call, and otherwise it issues exactly one batch
    fetch whose argument is exactly the missing list; with "A-1" cached,
    expanding a product with SKUs "A-1" and "B-2" issues exactly one call,
    requesting only "B-2". *)
Theorem toggleExpand_requests_missing st pid variants :
  pid ∉ expandedProducts st →
  Forall (λ v, sku v ∉ object_prototype_names) variants →
  let missing :=
    filter (λ s, s ≠ "" ∧ inventoryCache st !! s = None) (sku <$> variants) in
  (list_to_set missing : gset string)
  = (list_to_set (sku <$> variants) ∖ dom (inventoryCache st)) ∖ {[""]} ∧
  (missing = [] → (toggleExpand st pid variants).2 = []) ∧
  (missing ≠ [] → (toggleExpand st pid variants).2 = [missing]) ∧
  (∀ r : InventoryData,
     (toggleExpand {| expandedProducts := ∅; loadingInventory := ∅;
                      inventoryCache := {["A-1" := r]}; inFlight := [] |}
                   "p" [variant "A-1"; variant "B-2"]).2 = [["B-2"]]).
Proof.
  intros Hpid Hord missing.
  pose proof (skusToFetch_ordinary (inventoryCache st) variants Hord) as Hskus.
  fold missing in Hskus. split; [|split; [|split]].
  - apply missing_as_set.
  - intros H. rewrite toggleExpand_cached; [done..|]. by rewrite Hskus.
  - intros H. rewrite toggleExpand_fetch; [by rewrite Hskus|done|by rewrite Hskus].
  - intros r. vm_compute; reflexivity.
Qed.

Lemma toggleExpand_requests_missing_witness :
  let st := {| expandedProducts := {["q"]}; loadingInventory := ∅;
               inventoryCache := {["A-1" := record "A-1" 4 0]}; inFlight := [] |} in
  (toggleExpand st "p" [variant "A-1"; variant "B-2"; variant ""; variant "B-2"]).2
  = [["B-2"; "B-2"]].
Proof.
  intros st.
  assert ("p" ∉ expandedProducts st) as Hp.
  { apply (bool_decide_eq_false_1 ("p" ∈ expandedProducts st)). vm_compute; reflexivity. }
  assert (Forall (λ v, sku v ∉ object_prototype_names)
                 [variant "A-1"; variant "B-2"; variant ""; variant "B-2"]) as Hord.
  { repeat constructor; not_a_prototype_name. }
  refine (proj1 (proj2 (proj2
    (toggleExpand_requests_missing st "p"
       [variant "A-1"; variant "B-2"; variant ""; variant "B-2"] Hp Hord))) _).
  vm_compute; discriminate.
Defined.

(** *** What every step preserves *)

Lemma settle_Some st i outcome st' :
  settle st i outcome = Some st' →
  ∃ call, inFlight st !! i = Some call ∧
    st' = {| expandedProducts := newExpanded call;
             loadingInventory := loadingInventory st ∖ {[productId call]};
             inventoryCache :=
               match outcome with
               | Some inventoryData => inventoryData ∪ inventoryCache st
               | None => inventoryCache st
               end;
             inFlight := delete i (inFlight st) |}.
Proof.
  unfold settle. destruct (inFlight st !! i) as [call|]; simpl; [|done].
  intros [= <-]. by exists call.
Qed.

Lemma step_Toggle st pid variants st' calls :
  step st (Toggle pid variants) = Some (st', calls) →
  st' = (toggleExpand st pid variants).1 ∧ calls = (toggleExpand st pid variants).2.
Proof. simpl. intros [= Heq]. by rewrite Heq. Qed.

(** The cache only grows: no step removes a key. *)
Lemma step_cache_mono st e st' calls s :
  step st e = Some (st', calls) →
  is_Some (inventoryCache st !! s) → is_Some (inventoryCache st' !! s).
Proof.
  destruct e as [pid variants|i inventoryData|i]; simpl.
  - intros [= Heq]. rewrite <- (toggleExpand_cache st pid variants). by rewrite Heq.
  - destruct (settle st i (Some inventoryData)) as [st1|] eqn:Hs; simpl; [|done].
    intros [= <- _] [r Hr]. apply settle_Some in Hs as (call & _ & ->). simpl.
    rewrite lookup_union. rewrite Hr.
    destruct (inventoryData !! s); simpl; eauto.
  - destruct (settle st i None) as [st1|] eqn:Hs; simpl; [|done].
    intros [= <- _]. by apply settle_Some in Hs as (call & _ & ->).
Qed.

(** A step requests only SKUs whose read from the cache is undefined. *)
Lemma step_calls_uncached st e st' calls skus s :
  step st e = Some (st', calls) →
  skus ∈ calls → s ∈ skus → inventoryCache st !! s = None.
Proof.
  destruct e as [pid variants|i inventoryData|i]; simpl.
  - intros [_ ->]%step_Toggle. unfold toggleExpand. case_bool_decide; simpl; [set_solver|].
    destruct (0 <? _)%nat; simpl; [|set_solver].
    intros ->%list_elem_of_singleton Hs%elem_of_skusToFetch. tauto.
  - destruct (settle st i (Some inventoryData)); simpl; [|done].
    intros [= _ <-]. set_solver.
  - destruct (settle st i None); simpl; [|done].
    intros [= _ <-]. set_solver.
Qed.

Lemma run_reachable st es st' calls :
  reachable st → run st es = Some (st', calls) → reachable st'.
Proof.
  revert st calls. induction es as [|e es IH]; intros st calls Hr; simpl.
  - by intros [= <- _].
  - destruct (step st e) as [[st1 calls1]|] eqn:He; simpl; [|done].
    destruct (run st1 es) as [[st2 calls2]|] eqn:Hrun; simpl; [|done].
    intros [= <- _]. eapply IH; [|done]. by eapply reachable_step.
Qed.

Lemma reachable_inFlight st :
  reachable st → Forall call_ok (inFlight st).
Proof.
  induction 1 as [|st e st' calls _ IH Hstep]; [by constructor|].
  destruct e as [pid variants|i inventoryData|i]; simpl in Hstep.
  - apply step_Toggle in Hstep as [-> _]. unfold toggleExpand.
    case_bool_decide; simpl; [done|].
    destruct (skusToFetch (inventoryCache st) variants) as [|s0 rest] eqn:Hs;
      simpl; [done|].
    apply Forall_app. split; [done|].
    constructor; [|done]. split; simpl; [set_solver|done].
  - destruct (settle st i (Some inventoryData)) as [st1|] eqn:Hs; simpl in Hstep; [|done].
    injection Hstep as <- _. apply settle_Some in Hs as (call & _ & ->). simpl.
    by apply Forall_delete.
  - destruct (settle st i None) as [st1|] eqn:Hs; simpl in Hstep; [|done].
    injection Hstep as <- _. apply settle_Some in Hs as (call & _ & ->). simpl.
    by apply Forall_delete.
Qed.

Lemma skusToFetch_all_cached (cache : gmap string InventoryData) variants :
  (∀ v, v ∈ variants → is_Some (cache !! sku v)) →
  skusToFetch cache variants = [].
Proof.
  intros Hall. destruct (skusToFetch cache variants) as [|s rest] eqn:Hs; [done|].
  assert (s ∈ skusToFetch cache variants) as Hin by (rewrite Hs; left).
  apply elem_of_skusToFetch in Hin as (Hv & _ & Hnone & _).
  apply list_elem_of_fmap in Hv as (v & -> & Hv).
  destruct (Hall v Hv) as [r Hr]. congruence.
Qed.

Lemma outstanding_app st (call : Suspended) s :
  outstanding {| expandedProducts := expandedProducts st;
                 loadingInventory := {[productId call]} ∪ loadingInventory st;
                 inventoryCache := inventoryCache st;
                 inFlight := inFlight st ++ [call] |} s
  = (outstanding st s + if bool_decide (s ∈ requested call) then 1 else 0)%nat.
Proof.
  unfold outstanding. simpl. rewrite List.filter_app, length_app. simpl.
  by destruct (bool_decide (s ∈ requested call)).
Qed.

(** *** The claims about fetching *)

(** C5, as the specification states it, fails: the component keeps no set
    of SKUs being fetched.  Toggling a collapsed product twice before its
    request settles finds the product still absent from
    [expandedProducts] and its SKU still absent from the cache both times,
    and issues two requests for the same SKU, both outstanding. *)
Lemma second_toggle_fetches_again :
  ∃ st,
    run initial [Toggle "p" [variant "A"]; Toggle "p" [variant "A"]]
      = Some (st, [["A"]; ["A"]]) ∧
    reachable st ∧
    outstanding st "A" = 2%nat.
Proof.
  pose (st := (toggleExpand (toggleExpand initial "p" [variant "A"]).1
                            "p" [variant "A"]).1).
  assert (run initial [Toggle "p" [variant "A"]; Toggle "p" [variant "A"]]
          = Some (st, [["A"]; ["A"]])) as Hrun by (vm_compute; reflexivity).
  exists st. split; [exact Hrun|]. split.
  - eapply run_reachable; [apply reachable_initial | exact Hrun].
  - vm_compute; reflexivity.
Qed.

(** C5 (amended): fetches are de-duplicated against the cache only.  In
    every interleaving of toggles and completions, from the moment a SKU
    is a key of the cache no later [toggleExpand] requests it.  A SKU
    whose request is still in flight is not tracked ([loadingInventory]
    holds product ids and is never read by [toggleExpand]): expanding a
    collapsed product that needs such a SKU issues one more request
    naming it, whatever the number of requests already outstanding for
    it. *)
Theorem fetch_dedup_by_cache_only st es st' calls :
  run st es = Some (st', calls) →
  (∀ s skus, is_Some (inventoryCache st !! s) → skus ∈ calls → s ∉ skus) ∧
  (∀ pid variants s,
     pid ∉ expandedProducts st' →
     s ∈ skusToFetch (inventoryCache st') variants →
     (toggleExpand st' pid variants).2 = [skusToFetch (inventoryCache st') variants] ∧
     outstanding (toggleExpand st' pid variants).1 s = S (outstanding st' s)).
Proof.
  intros Hrun. split.
  - revert st calls Hrun.
    induction es as [|e es IH]; intros st calls; simpl.
    + intros [= _ <-]. set_solver.
    + destruct (step st e) as [[st1 calls1]|] eqn:He; simpl; [|done].
      destruct (run st1 es) as [[st2 calls2]|] eqn:Hrun; simpl; [|done].
      intros [= <- <-] s skus Hs [Hin|Hin]%elem_of_app Hmem.
      * pose proof (step_calls_uncached _ _ _ _ _ _ He Hin Hmem) as Hnone.
        destruct Hs as [r Hr]. congruence.
      * eapply (IH _ _ Hrun); [|done..].
        by eapply step_cache_mono.
  - intros pid variants s Hpid Hs.
    assert (skusToFetch (inventoryCache st') variants ≠ []) as Hne.
    { intros Hnil. rewrite Hnil in Hs. by apply not_elem_of_nil in Hs. }
    rewrite toggleExpand_fetch by done. split; [done|]. simpl.
    rewrite (outstanding_app st'
      {| productId := pid; requested := skusToFetch (inventoryCache st') variants;
         newExpanded := {[pid]} ∪ expandedProducts st' |}).
    simpl. rewrite bool_decide_eq_true_2 by done. lia.
Qed.

Lemma fetch_dedup_by_cache_only_witness :
  let st := (toggleExpand initial "p" [variant "A"]).1 in
  (toggleExpand st "p" [variant "A"]).2 = [["A"]] ∧
  outstanding (toggleExpand st "p" [variant "A"]).1 "A" = 2%nat.
Proof.
  intros st.
  assert (run initial [Toggle "p" [variant "A"]] = Some (st, [["A"]])) as Hrun
    by (vm_compute; reflexivity).
  refine (proj2 (fetch_dedup_by_cache_only initial _ st _ Hrun)
            "p" [variant "A"] "A" _ _).
  - vm_compute. set_solver.
  - vm_compute. left.
Defined.


Lemma hasInventoryLoaded_true (cache : gmap string InventoryData) variants :
  hasInventoryLoaded cache variants = true ↔
  ∀ v, v ∈ variants → has cache (sku v) = true.
Proof.
  unfold hasInventoryLoaded. destruct variants as [|v0 rest].
  - simpl. split; [|done]. intros _ v Hv. by apply not_elem_of_nil in Hv.
  - change (length (v0 :: rest) =? 0)%nat with false. cbv iota.
    rewrite forallb_forall. split.
    + intros H v Hv. by apply H, list_elem_of_In.
    + intros H v Hv. by apply H, list_elem_of_In.
Qed.





(** C7: if the batch inventory fetch fails, the cache is left unchanged
    (no entry is inserted or modified, the SKUs that were missing remain
    absent), and the toggled product still becomes expanded, with its
    loading mark removed. *)
Theorem fetch_failure_keeps_cache st i call :
  reachable st →
  inFlight st !! i = Some call →
  ∃ st',
    step st (Reject i) = Some (st', []) ∧
    inventoryCache st' = inventoryCache st ∧
    (∀ s, s ∈ requested call → inventoryCache st !! s = None →
          inventoryCache st' !! s = None) ∧
    productId call ∈ expandedProducts st' ∧
    productId call ∉ loadingInventory st'.
Proof.
  intros Hreach Hcall.
  pose proof (reachable_inFlight st Hreach) as Hok.
  rewrite Forall_lookup in Hok. destruct (Hok i call Hcall) as [Hpid _].
  eexists. split.
  - simpl. unfold settle. rewrite Hcall. simpl. reflexivity.
  - simpl. split; [done|]. split; [done|]. split; [done|].
    rewrite elem_of_difference, elem_of_singleton. by intros [_ ?].
Qed.

Lemma fetch_failure_keeps_cache_witness :
  let st := (toggleExpand initial "p" [variant "A"]).1 in
  ∃ st', step st (Reject 0) = Some (st', []) ∧
         inventoryCache st' = ∅ ∧ "p" ∈ expandedProducts st'.
Proof.
  intros st.
  assert (reachable st) as Hr.
  { apply (reachable_step initial (Toggle "p" [variant "A"]) st [["A"]]);
      [apply reachable_initial | vm_compute; reflexivity]. }
  assert (inFlight st !! 0%nat =
          Some {| productId := "p"; requested := ["A"]; newExpanded := {["p"]} ∪ ∅ |})
    as Hcall by (vm_compute; reflexivity).
  destruct (fetch_failure_keeps_cache st 0 _ Hr Hcall)
    as (st' & Hstep & Hcache & _ & Hexp & _).
  exists st'. split; [exact Hstep|]. split; [exact Hcache | exact Hexp].
Defined.

(** C8: collapsing and then re-expanding a product whose variant SKUs are
    all present in the cache issues no network call: the collapse removes
    no cache entry, and the expansion that follows finds nothing to fetch
    and leaves the product expanded on the cached data. *)
Theorem collapse_reexpand_no_fetch st pid variants :
  pid ∈ expandedProducts st →
  (∀ v, v ∈ variants → is_Some (inventoryCache st !! sku v)) →
  ∃ st1 st2,
    step st (Toggle pid variants) = Some (st1, []) ∧
    (pid ∉ expandedProducts st1) ∧
    inventoryCache st1 = inventoryCache st ∧
    skusToFetch (inventoryCache st1) variants = [] ∧
    step st1 (Toggle pid variants) = Some (st2, []) ∧
    pid ∈ expandedProducts st2 ∧
    inventoryCache st2 = inventoryCache st ∧
    inFlight st2 = inFlight st ∧
    run st [Toggle pid variants; Toggle pid variants] = Some (st2, []).
Proof.
  intros Hpid Hcached.
  pose proof (skusToFetch_all_cached _ _ Hcached) as Hnil.
  pose (st1 := {| expandedProducts := expandedProducts st ∖ {[pid]};
                  loadingInventory := loadingInventory st;
                  inventoryCache := inventoryCache st;
                  inFlight := inFlight st |}).
  assert (pid ∉ expandedProducts st1) as Hpid1.
  { simpl. rewrite elem_of_difference, elem_of_singleton. by intros [_ ?]. }
  assert (step st (Toggle pid variants) = Some (st1, [])) as H1.
  { simpl. by rewrite toggleExpand_collapse. }
  assert (step st1 (Toggle pid variants) =
          Some ({| expandedProducts := {[pid]} ∪ expandedProducts st1;
                   loadingInventory := loadingInventory st1;
                   inventoryCache := inventoryCache st1;
                   inFlight := inFlight st1 |}, [])) as H2.
  { simpl. by rewrite toggleExpand_cached. }
  eexists st1, _. split; [exact H1|]. split; [exact Hpid1|].
  split; [done|]. split; [exact Hnil|]. split; [exact H2|].
  split; [simpl; set_solver|]. split; [done|]. split; [done|].
  cbn [run]. rewrite H1. cbn [mbind option_bind]. rewrite H2. reflexivity.
Qed.

Lemma collapse_reexpand_no_fetch_witness :
  let st := {| expandedProducts := {["p"]}; loadingInventory := ∅;
               inventoryCache := {["A" := record "A" 4 0]}; inFlight := [] |} in
  ∃ st2, run st [Toggle "p" [variant "A"]; Toggle "p" [variant "A"]] = Some (st2, []) ∧
         inventoryCache st2 = inventoryCache st.
Proof.
  intros st.
  assert ("p" ∈ expandedProducts st) as Hp by (simpl; set_solver).
  assert (∀ v, v ∈ [variant "A"] → is_Some (inventoryCache st !! sku v)) as Hc.
  { intros v ->%list_elem_of_singleton. vm_compute. eauto. }
  destruct (collapse_reexpand_no_fetch st "p" [variant "A"] Hp Hc)
    as (st1 & st2 & _ & _ & _ & _ & _ & _ & Hcache & _ & Hrun).
  exists st2. split; [exact Hrun | exact Hcache].
Defined.

End Expansion.

(** ** More about the SKU preview *)

Section SkuPreviewShape.
Import Js AddProductPage AddProductForm.

Lemma all_chars_app (p : ascii → bool) (s t : string) :
  all_chars p (s +:+ t) = all_chars p s && all_chars p t.
Proof.
  induction s as [|c s IH]; [done|].
  rewrite app_cons. simpl. rewrite IH. by rewrite andb_assoc.
Qed.

Lemma all_chars_impl (p q : ascii → bool) (s : string) :
  (∀ c, p c = true → q c = true) →
  all_chars p s = true → all_chars q s = true.
Proof.
  intros Hpq. induction s as [|c s IH]; simpl; [done|].
  intros [Hc Hs]%andb_true_iff. rewrite (Hpq c Hc). by apply IH.
Qed.

Lemma all_chars_map (p q : ascii → bool) (f : ascii → ascii) (s : string) :
  (∀ c, p c = true → q (f c) = true) →
  all_chars p s = true → all_chars q (map_chars f s) = true.
Proof.
  intros Hpq. induction s as [|c s IH]; simpl; [done|].
  intros [Hc Hs]%andb_true_iff. rewrite (Hpq c Hc). by apply IH.
Qed.

Lemma all_chars_substring0 (p : ascii → bool) (n : nat) (s : string) :
  all_chars p s = true → all_chars p (substring0 n s) = true.
Proof.
  revert n. induction s as [|c s IH]; intros [|n]; simpl; try done.
  intros [Hc Hs]%andb_true_iff. rewrite Hc. by apply IH.
Qed.

Lemma all_chars_take_while (p : ascii → bool) (s : string) :
  all_chars p (take_while p s) = true.
Proof.
  induction s as [|c s IH]; simpl; [done|].
  destruct (p c) eqn:Hc; simpl; [|done]. by rewrite Hc.
Qed.

Lemma all_chars_repeat (p : ascii → bool) (c : ascii) (n : nat) :
  p c = true → all_chars p (repeat_char c n) = true.
Proof. intros Hc. induction n as [|n IH]; simpl; [done|]. by rewrite Hc. Qed.

Lemma length_substring0 (n : nat) (s : string) :
  (String.length (substring0 n s) ≤ n)%nat.
Proof.
  revert s. induction n as [|n IH]; intros [|c s]; simpl; try lia.
  specialize (IH s). lia.
Qed.

Lemma match_digits_digits (s d : string) :
  match_digits s = Some d → all_chars is_digit d = true.
Proof.
  induction s as [|c s IH]; simpl; [done|].
  destruct (is_digit c) eqn:Hc; [|done].
  intros [= <-]. simpl. rewrite Hc. apply all_chars_take_while.
Qed.

(** The initials are letters and the numbers are digits. *)
Lemma scan_word_classes (acc : string * string) (word : string) :
  all_chars is_letter acc.1 = true → all_chars is_digit acc.2 = true →
  all_chars is_letter (scan_word acc word).1 = true ∧
  all_chars is_digit (scan_word acc word).2 = true.
Proof.
  intros H1 H2. unfold scan_word. simpl. split.
  - destruct word as [|c w]; [done|].
    destruct (is_letter c) eqn:Hc; [|done].
    rewrite all_chars_app, H1. simpl. by rewrite Hc.
  - destruct (match_digits word) as [d|] eqn:Hd; [|done].
    rewrite all_chars_app, H2. simpl. by eapply match_digits_digits.
Qed.

Lemma initials_numbers_classes (productName : string) :
  all_chars is_letter (initials_numbers productName).1 = true ∧
  all_chars is_digit (initials_numbers productName).2 = true.
Proof.
  unfold initials_numbers.
  generalize (words_of productName). intros ws.
  assert (∀ acc, all_chars is_letter acc.1 = true → all_chars is_digit acc.2 = true →
            all_chars is_letter (foldl scan_word acc ws).1 = true ∧
            all_chars is_digit (foldl scan_word acc ws).2 = true) as Hgen.
  { induction ws as [|w ws IH]; intros acc H1 H2; simpl; [done|].
    destruct (scan_word_classes acc w H1 H2) as [H1' H2']. by apply IH. }
  by apply Hgen.
Qed.

Lemma upper_char_base (c : ascii) :
  (is_letter c || is_digit c) = true → base_char (upper_char c) = true.
Proof. destruct c as [[] [] [] [] [] [] [] []]; vm_compute; done. Qed.

Lemma raw_code_classes (productName : string) :
  all_chars (λ c, is_letter c || is_digit c) (raw_code productName) = true ∧
  (String.length (raw_code productName) ≤ 10)%nat.
Proof.
  unfold raw_code.
  pose proof (initials_numbers_classes productName) as [H1 H2].
  destruct (initials_numbers productName) as [initials numbers]. cbn [fst snd] in *.
  split; [|apply length_substring0].
  apply all_chars_substring0. rewrite all_chars_app. apply andb_true_iff. split.
  - eapply all_chars_impl; [|exact H1]. by intros c ->.
  - eapply all_chars_impl; [|exact H2]. intros c ->. apply orb_true_r.
Qed.

Lemma code_of_shape (productName : string) :
  let base := toUpperCase (code_of productName) in
  (2 ≤ String.length base ≤ 10)%nat ∧ all_chars base_char base = true.
Proof.
  intros base. subst base.
  destruct (raw_code_classes productName) as [Hcls Hlen].
  unfold toUpperCase. rewrite length_map_chars. unfold code_of.
  destruct (Nat.ltb_spec (String.length (raw_code productName)) 2) as [Hlt|Hge].
  - split.
    + unfold padEnd. rewrite string_length_app, length_repeat_char. lia.
    + eapply all_chars_map; [apply upper_char_base|].
      unfold padEnd. rewrite all_chars_app, Hcls. simpl.
      by apply all_chars_repeat.
  - split; [lia|]. eapply all_chars_map; [apply upper_char_base | exact Hcls].
Qed.

Lemma join_cons (sep p : string) (rest : list string) :
  ∃ tail, join sep (p :: rest) = p +:+ tail.
Proof.
  destruct rest as [|q rest]; simpl.
  - exists "". induction p as [|c p IH]; [done|]. rewrite app_cons. by rewrite <- IH.
  - eauto.
Qed.

(** X1: whenever a preview is produced for a name that is not blank, it
    begins with the base segment, and the base segment has between 2 and 10
    characters, each an uppercase letter A-Z or a digit. *)
Theorem preview_base_segment
    (productName : string) (color size : option string) (preview : string) :
  is_empty (trim productName) = false →
  generateSkuPreview productName color size = Return preview →
  let base := toUpperCase (code_of productName) in
  (∃ rest, preview = base +:+ rest) ∧
  (2 ≤ String.length base ≤ 10)%nat ∧
  all_chars base_char base = true.
Proof.
  intros Hname Hgen base. split; [|apply code_of_shape].
  unfold generateSkuPreview in Hgen. rewrite Hname in Hgen. fold base in Hgen.
  destruct (provided size) as [s|].
  - destruct (size_segment s) as [seg|]; [|done].
    injection Hgen as <-. destruct (provided color); apply join_cons.
  - injection Hgen as <-. destruct (provided color); apply join_cons.
Qed.

Lemma preview_base_segment_witness :
  ∃ rest, "I15-128" = "I15" +:+ rest.
Proof.
  refine (proj1 (preview_base_segment "iPhone 15" None (Some "128GB") "I15-128" _ _));
    vm_compute; reflexivity.
Defined.

End SkuPreviewShape.

Section SkuPreviewThrows.
Import Js AddProductPage AddProductForm.

Lemma all_chars_trimStart (p : ascii → bool) (s : string) :
  all_chars p s = true → all_chars p (trimStart s) = true.
Proof.
  induction s as [|c s IH]; simpl; [done|].
  intros [Hc Hs]%andb_true_iff. destruct (is_space c); [by apply IH|].
  simpl. by rewrite Hc.
Qed.

Lemma all_chars_trimEnd (p : ascii → bool) (s : string) :
  all_chars p s = true → all_chars p (trimEnd s) = true.
Proof.
  induction s as [|c s IH]; simpl; [done|].
  intros [Hc Hs]%andb_true_iff.
  destruct (is_space c && is_empty (trimEnd s)); [done|].
  simpl. rewrite Hc. by apply IH.
Qed.

Lemma all_chars_trim (p : ascii → bool) (s : string) :
  all_chars p s = true → all_chars p (trim s) = true.
Proof. intros H. by apply all_chars_trimEnd, all_chars_trimStart. Qed.

Lemma lower_char_not_upper (c : ascii) : negb (is_upper (lower_char c)) = true.
Proof. destruct c as [[] [] [] [] [] [] [] []]; vm_compute; done. Qed.

Lemma toLowerCase_no_upper (s : string) :
  all_chars (λ c, negb (is_upper c)) (toLowerCase s) = true.
Proof.
  induction s as [|c s IH]; [done|].
  change (negb (is_upper (lower_char c)) &&
          all_chars (λ c, negb (is_upper c)) (toLowerCase s) = true).
  by rewrite lower_char_not_upper, IH.
Qed.

(** The only names of [Object.prototype] a lowercased size can hit. *)
Lemma inherited_lowercase (s : string) :
  inherited (trim (toLowerCase s)) = true →
  trim (toLowerCase s) = "constructor" ∨ trim (toLowerCase s) = "__proto__".
Proof.
  pose proof (all_chars_trim _ _ (toLowerCase_no_upper s)) as Hlow.
  unfold inherited. intros Hin%bool_decide_eq_true_1.
  apply list_elem_of_In in Hin. simpl in Hin.
  destruct Hin as [H|[H|Hin]]; [by left | by right |].
  repeat (destruct Hin as [H|Hin];
          [rewrite <- H in Hlow; vm_compute in Hlow; discriminate|]).
  destruct Hin.
Qed.

Lemma generateSkuPreview_Throw
    (productName : string) (color size : option string) :
  generateSkuPreview productName color size = Throw_TypeError ↔
  is_empty (trim productName) = false ∧
  ∃ s, size = Some s ∧
       (trim (toLowerCase s) = "constructor" ∨ trim (toLowerCase s) = "__proto__").
Proof.
  unfold generateSkuPreview. split.
  - destruct (is_empty (trim productName)); [done|]. intros H. split; [done|].
    destruct size as [s|]; simpl in H; [|done].
    destruct (is_empty s); [done|].
    exists s. split; [done|].
    unfold size_segment, get in H.
    destruct (sizeMap !! trim (toLowerCase s)); [done|].
    destruct (inherited (trim (toLowerCase s))) eqn:Hin; [|done].
    by apply inherited_lowercase.
  - intros [-> (s & -> & Hs)].
    assert (is_empty s = false) as Hne.
    { destruct s; [|done]. destruct Hs as [Hs|Hs]; vm_compute in Hs; discriminate. }
    simpl. rewrite Hne. unfold size_segment.
    by destruct Hs as [-> | ->].
Qed.

(** X2: the preview throws exactly when the name is not blank and the size,
    lowercased and trimmed, is "constructor" or "__proto__": the lookup in
    the size table then finds a member inherited from Object.prototype, which
    has no [toUpperCase].  In every other case a string is returned. *)
Theorem generateSkuPreview_throws_iff
    (productName : string) (color size : option string) :
  generateSkuPreview productName color size = Throw_TypeError ↔
  is_empty (trim productName) = false ∧
  ∃ s, size = Some s ∧
       (trim (toLowerCase s) = "constructor" ∨ trim (toLowerCase s) = "__proto__").
Proof. apply generateSkuPreview_Throw. Qed.

End SkuPreviewThrows.

Section SkuPreviewInsensitive.
Import Js AddProductPage AddProductForm.

Lemma keep_chars_all (p : ascii → bool) (s : string) :
  all_chars p s = true → keep_chars p s = s.
Proof.
  induction s as [|c s IH]; simpl; [done|].
  intros [Hc Hs]%andb_true_iff. rewrite Hc. by rewrite IH.
Qed.

Lemma cleaned_not_blank (productName : string) :
  is_empty (trim (keep_chars name_char productName)) = false →
  is_empty (trim productName) = false.
Proof.
  intros Hclean. destruct (is_empty (trim productName)) eqn:Hblank; [|done].
  apply trim_blank in Hblank.
  rewrite keep_chars_all in Hclean.
  - apply trim_blank in Hblank. congruence.
  - eapply all_chars_impl; [|exact Hblank].
    intros c Hc. unfold name_char. rewrite Hc. apply orb_true_r.
Qed.

Lemma code_of_cleaned (n1 n2 : string) :
  keep_chars name_char n1 = keep_chars name_char n2 → code_of n1 = code_of n2.
Proof.
  intros H. unfold code_of, raw_code, initials_numbers, words_of. by rewrite H.
Qed.

(** X3: characters other than letters, digits and white space never
    influence the preview: two names that are equal once those characters
    are stripped, and that keep at least one letter or digit, have the same
    preview for every colour and size. *)
Theorem preview_ignores_punctuation (n1 n2 : string) (color size : option string) :
  keep_chars name_char n1 = keep_chars name_char n2 →
  is_empty (trim (keep_chars name_char n1)) = false →
  generateSkuPreview n1 color size = generateSkuPreview n2 color size.
Proof.
  intros Heq Hclean.
  pose proof (cleaned_not_blank n1 Hclean) as H1.
  rewrite Heq in Hclean. pose proof (cleaned_not_blank n2 Hclean) as H2.
  unfold generateSkuPreview. rewrite H1, H2.
  by rewrite (code_of_cleaned n1 n2 Heq).
Qed.

Lemma preview_ignores_punctuation_witness :
  generateSkuPreview "T-Shirt (new)!" (Some "Red") None
  = generateSkuPreview "TShirt new" (Some "Red") None.
Proof.
  apply (preview_ignores_punctuation "T-Shirt (new)!" "TShirt new" (Some "Red") None);
    vm_compute; reflexivity.
Defined.

(** *** The case of the letters of the name *)

Local Abbreviation up := (map_chars upper_char).

Lemma upper_char_classes (c : ascii) :
  is_space (upper_char c) = is_space c ∧
  is_letter (upper_char c) = is_letter c ∧
  is_digit (upper_char c) = is_digit c ∧
  upper_char (upper_char c) = upper_char c ∧
  (is_digit c = true → upper_char c = c).
Proof. destruct c as [[] [] [] [] [] [] [] []]; vm_compute; done. Qed.

Lemma up_idemp (s : string) : up (up s) = up s.
Proof.
  induction s as [|c s IH]; simpl; [done|].
  destruct (upper_char_classes c) as (_ & _ & _ & -> & _). by rewrite IH.
Qed.

Lemma up_empty (s : string) : up s = "" ↔ s = "".
Proof. by destruct s. Qed.

Lemma up_rev_app (s t : string) :
  String.rev_app (up s) (up t) = up (String.rev_app s t).
Proof.
  revert t. induction s as [|c s IH]; intros t; simpl; [done|].
  apply (IH (String c t)).
Qed.

Lemma up_rev (s : string) : String.rev (up s) = up (String.rev s).
Proof. apply (up_rev_app s ""). Qed.

Lemma up_keep_chars (s : string) :
  keep_chars name_char (up s) = up (keep_chars name_char s).
Proof.
  induction s as [|c s IH]; simpl; [done|].
  assert (name_char (upper_char c) = name_char c) as ->.
  { unfold name_char. destruct (upper_char_classes c) as (-> & -> & -> & _). done. }
  destruct (name_char c); simpl; by rewrite IH.
Qed.

Lemma up_split_go (cur : string) (in_sep : bool) (s : string) :
  split_go (up cur) in_sep (up s) = up <$> split_go cur in_sep s.
Proof.
  revert cur in_sep. induction s as [|c s IH]; intros cur in_sep; simpl.
  - by rewrite up_rev.
  - destruct (upper_char_classes c) as (-> & _).
    destruct (is_space c).
    + destruct in_sep; [apply IH|].
      rewrite fmap_cons, up_rev. f_equal. apply (IH "").
    + apply (IH (String c cur)).
Qed.

Lemma up_words_of (productName : string) :
  words_of (up productName) = up <$> words_of productName.
Proof.
  unfold words_of, split_spaces. rewrite up_keep_chars.
  rewrite (up_split_go "" false).
  generalize (split_go "" false (keep_chars name_char productName)). intros ws.
  induction ws as [|w ws IH]; [done|].
  rewrite fmap_cons, !filter_cons.
  destruct (decide (up w ≠ "")) as [H|H], (decide (w ≠ "")) as [H'|H'].
  - by rewrite fmap_cons, IH.
  - exfalso. apply H. apply up_empty. by apply dec_stable.
  - exfalso. apply H'. apply up_empty. by apply dec_stable.
  - done.
Qed.

Lemma up_app (s t : string) : up (s +:+ t) = up s +:+ up t.
Proof. apply map_chars_app. Qed.

Lemma up_take_while (s : string) :
  take_while is_digit (up s) = up (take_while is_digit s).
Proof.
  induction s as [|c s IH]; simpl; [done|].
  destruct (upper_char_classes c) as (_ & _ & -> & _).
  destruct (is_digit c); simpl; by rewrite ?IH.
Qed.

Lemma up_match_digits (s : string) :
  match_digits (up s) = up <$> match_digits s.
Proof.
  induction s as [|c s IH]; simpl; [done|].
  destruct (upper_char_classes c) as (_ & _ & -> & _).
  destruct (is_digit c); [|done]. simpl. by rewrite up_take_while.
Qed.

Lemma up_scan_word (acc : string * string) (w : string) :
  scan_word (up acc.1, up acc.2) (up w)
  = (up (scan_word acc w).1, up (scan_word acc w).2).
Proof.
  unfold scan_word. cbn [fst snd]. f_equal.
  - destruct w as [|c w]; [done|]. simpl.
    destruct (upper_char_classes c) as (_ & -> & _).
    destruct (is_letter c); [|done]. by rewrite up_app.
  - rewrite up_match_digits. destruct (match_digits w); simpl; [|done].
    by rewrite up_app.
Qed.

Lemma up_initials_numbers (productName : string) :
  initials_numbers (up productName)
  = (up (initials_numbers productName).1, up (initials_numbers productName).2).
Proof.
  unfold initials_numbers. rewrite up_words_of.
  generalize (words_of productName). intros ws.
  change ("", "") with (up ("", "").1, up ("", "").2) at 1.
  generalize (("", "") : string * string). 
  induction ws as [|w ws IH]; intros acc; simpl; [done|].
  rewrite up_scan_word. apply IH.
Qed.

Lemma up_substring0 (n : nat) (s : string) :
  substring0 n (up s) = up (substring0 n s).
Proof.
  revert s. induction n as [|n IH]; intros [|c s]; simpl; try done.
  by rewrite IH.
Qed.

Lemma up_raw_code (productName : string) :
  raw_code (up productName) = up (raw_code productName).
Proof.
  unfold raw_code. rewrite up_initials_numbers.
  destruct (initials_numbers productName) as [initials numbers]. cbn [fst snd].
  by rewrite <- up_app, up_substring0.
Qed.

Lemma up_code_of (productName : string) :
  toUpperCase (code_of (up productName)) = toUpperCase (code_of productName).
Proof.
  unfold code_of. rewrite up_raw_code, length_map_chars.
  destruct (String.length (raw_code productName) <? 2)%nat.
  - rewrite !toUpperCase_padEnd, length_map_chars.
    unfold toUpperCase. by rewrite up_idemp.
  - unfold toUpperCase. by rewrite up_idemp.
Qed.

Lemma up_all_space (s : string) :
  all_chars is_space (up s) = all_chars is_space s.
Proof.
  induction s as [|c s IH]; simpl; [done|].
  destruct (upper_char_classes c) as (-> & _). by rewrite IH.
Qed.

Lemma up_blank (productName : string) :
  is_empty (trim (up productName)) = is_empty (trim productName).
Proof.
  destruct (is_empty (trim productName)) eqn:H.
  - apply trim_blank. rewrite up_all_space. by apply trim_blank.
  - destruct (is_empty (trim (up productName))) eqn:H'; [|done].
    apply trim_blank in H'. rewrite up_all_space in H'.
    apply trim_blank in H'. congruence.
Qed.

Lemma up_generateSkuPreview (productName : string) (color size : option string) :
  generateSkuPreview (up productName) color size
  = generateSkuPreview productName color size.
Proof. unfold generateSkuPreview. by rewrite up_blank, up_code_of. Qed.

(** X4: the preview does not depend on the case of the ASCII letters of the
    product name: two names that differ only in letter case have the same
    preview (or both throw) for every colour and size. *)
Theorem preview_ignores_name_case (n1 n2 : string) (color size : option string) :
  same_up_to_case n1 n2 →
  generateSkuPreview n1 color size = generateSkuPreview n2 color size.
Proof.
  unfold same_up_to_case. intros H.
  rewrite <- (up_generateSkuPreview n1), <- (up_generateSkuPreview n2).
  by rewrite H.
Qed.

Lemma preview_ignores_name_case_witness :
  generateSkuPreview "iphone 15 PRO" None (Some "128GB")
  = generateSkuPreview "iPhone 15 Pro" None (Some "128GB").
Proof.
  apply (preview_ignores_name_case "iphone 15 PRO" "iPhone 15 Pro" None (Some "128GB")).
  vm_compute; reflexivity.
Defined.

End SkuPreviewInsensitive.

(** ** The variant list of the product-creation form *)

Section VariantList.
Import Js AddProductPage AddProductForm.

Lemma regenerate_Some (name0 : string) (v v' : Variant) :
  regenerate name0 v = Some v' →
  in_sync name0 v' ∧ id v' = id v ∧ color v' = color v ∧ size v' = size v ∧
  initial_stock v' = initial_stock v.
Proof.
  unfold regenerate, in_sync.
  destruct (generateSkuPreview name0 (Some (color v)) (Some (size v))) as [preview|] eqn:H;
    [|done].
  intros [= <-]. simpl. eauto 10.
Qed.

Lemma previewEffect_sync (name0 : string) (vs vs' : list Variant) :
  previewEffect name0 vs = Some vs' → Forall (in_sync name0) vs'.
Proof.
  unfold previewEffect. rewrite mapM_Some. intros H.
  induction H as [|v v' vs vs' Hv _ IH]; constructor; [|done].
  by apply regenerate_Some in Hv as [? _].
Qed.

Lemma updateVariant_sync (name0 id0 : string) (fv : FieldValue) (vs vs' : list Variant) :
  Forall (in_sync name0) vs →
  updateVariant name0 id0 fv vs = Some vs' →
  Forall (in_sync name0) vs'.
Proof.
  unfold updateVariant. rewrite mapM_Some. intros Hsync H.
  induction H as [|v v' vs vs' Hv _ IH]; [done|].
  apply Forall_cons in Hsync as [Hv0 Hvs]. constructor; [|by apply IH].
  destruct (decide (id v = id0)); [|by injection Hv as <-].
  destruct fv as [value|value|value].
  - by apply regenerate_Some in Hv as [? _].
  - by apply regenerate_Some in Hv as [? _].
  - injection Hv as <-. exact Hv0.
Qed.

Lemma form_step_sync (f f' : Form) (e : FormEvent) :
  Forall (in_sync (name f)) (variants f) →
  form_step f e = Some f' →
  Forall (in_sync (name f')) (variants f').
Proof.
  intros Hsync. destruct e as [value|now|id0|id0 fv]; simpl.
  - destruct (decide (value = name f)); [by intros [= <-]|].
    destruct (previewEffect value (variants f)) as [vs|] eqn:Heff; simpl; [|done].
    intros [= <-]. simpl. by eapply previewEffect_sync.
  - unfold addVariant.
    destruct (generateSkuPreview (name f) (Some "") (Some "")) as [preview|] eqn:Hp;
      simpl; [|done].
    intros [= <-]. simpl. apply Forall_app. split; [done|].
    constructor; [|done]. by exists preview.
  - intros [= <-]. simpl. unfold removeVariant.
    rewrite Forall_forall in Hsync. apply Forall_forall.
    intros v [_ Hv]%list_elem_of_filter. by apply Hsync.
  - destruct (updateVariant (name f) id0 fv (variants f)) as [vs|] eqn:Hup; simpl; [|done].
    intros [= <-]. simpl. by eapply updateVariant_sync.
Qed.

(** X5: the SKU previews never go stale.  After any sequence of edits of the
    form (typing a name, adding, removing and editing variants) that does
    not throw, every variant shows exactly the preview that
    [generateSkuPreview] computes from the current product name and the
    variant's current colour and size. *)
Theorem previews_stay_in_sync (es : list FormEvent) (f : Form) :
  form_run empty_form es = Some f →
  Forall (in_sync (name f)) (variants f).
Proof.
  assert (∀ f0, Forall (in_sync (name f0)) (variants f0) →
                form_run f0 es = Some f →
                Forall (in_sync (name f)) (variants f)) as Hgen.
  { induction es as [|e es IH]; intros f0 H0; simpl.
    - by intros [= <-].
    - destruct (form_step f0 e) as [f1|] eqn:Hstep; simpl; [|done].
      apply IH. by eapply form_step_sync. }
  apply Hgen. by constructor.
Qed.

Lemma previews_stay_in_sync_witness :
  Forall (in_sync "Blue Shirt 3")
    [{| id := "2"; color := ""; size := "Medium"; initial_stock := -3;
        generated_sku := Some "BS3-M" |}].
Proof.
  apply (previews_stay_in_sync
           [AddVariant "1"; ChangeName "Blue Shirt 3"; UpdateVariant "1" (Color "navy");
            AddVariant "2"; UpdateVariant "2" (Size "Medium");
            UpdateVariant "2" (InitialStock (-3)); RemoveVariant "1"]
           {| name := "Blue Shirt 3";
              variants := [{| id := "2"; color := ""; size := "Medium";
                              initial_stock := -3; generated_sku := Some "BS3-M" |}] |}).
  vm_compute; reflexivity.
Defined.

(** X6: editing a field of a variant keeps the number, the order and the ids
    of the variants; a variant with another id is left exactly as it was,
    and every variant with the given id receives the new value. *)
Theorem updateVariant_frame
    (name0 id0 : string) (fv : FieldValue) (vs vs' : list Variant) :
  updateVariant name0 id0 fv vs = Some vs' →
  length vs' = length vs ∧
  Forall2 (λ v v',
             id v' = id v ∧
             (id v ≠ id0 → v' = v) ∧
             (id v = id0 →
              color v' = color (assign v fv) ∧ size v' = size (assign v fv) ∧
              initial_stock v' = initial_stock (assign v fv)))
          vs vs'.
Proof.
  unfold updateVariant. rewrite mapM_Some. intros H. split.
  - symmetry. by eapply Forall2_length.
  - induction H as [|v v' vs vs' Hv _ IH]; constructor; [|done].
    destruct (decide (id v = id0)) as [Heq|Hne].
    + assert (id v' = id v ∧ color v' = color (assign v fv) ∧
              size v' = size (assign v fv) ∧
              initial_stock v' = initial_stock (assign v fv)) as (? & ? & ? & ?).
      { destruct fv as [value|value|value].
        - apply regenerate_Some in Hv as (_ & ? & ? & ? & ?). done.
        - apply regenerate_Some in Hv as (_ & ? & ? & ? & ?). done.
        - by injection Hv as <-. }
      done.
    + injection Hv as <-. done.
Qed.

Lemma updateVariant_frame_witness :
  length [{| id := "1"; color := "navy"; size := ""; initial_stock := 0;
             generated_sku := Some "PROD" |}] = 1%nat.
Proof.
  refine (proj1 (updateVariant_frame "" "1" (Color "navy")
    [{| id := "1"; color := ""; size := ""; initial_stock := 0;
        generated_sku := Some "PROD" |}] _ _)).
  vm_compute; reflexivity.
Defined.

(** X7: adding a variant and removing it again restores the list, provided
    no older variant has the id of the new one (ids are the clock reading at
    the time of the click). *)
Theorem addVariant_removeVariant (name0 now : string) (vs vs' : list Variant) :
  Forall (λ v, id v ≠ now) vs →
  addVariant name0 now vs = Some vs' →
  removeVariant now vs' = vs ∧ length vs' = S (length vs).
Proof.
  intros Hfresh. unfold addVariant.
  destruct (generateSkuPreview name0 (Some "") (Some "")) as [preview|]; [|done].
  intros [= <-]. split.
  - unfold removeVariant. rewrite filter_app, filter_cons, filter_nil. simpl.
    rewrite decide_False by (by intros H; apply H).
    rewrite app_nil_r.
    induction Hfresh as [|v vs Hv _ IH]; [done|].
    rewrite filter_cons, decide_True by done. by rewrite IH.
  - rewrite length_app. simpl. lia.
Qed.

Lemma addVariant_removeVariant_witness :
  let older :=
    [{| id := "3"; color := "Red"; size := ""; initial_stock := 2;
        generated_sku := Some "MUG-RED" |};
     {| id := "5"; color := ""; size := "Large"; initial_stock := 0;
        generated_sku := Some "MUG-L" |}] in
  ∃ vs', addVariant "Mug" "7" older = Some vs' ∧
         removeVariant "7" vs' = older ∧ length vs' = 3%nat.
Proof.
  intros older.
  destruct (addVariant "Mug" "7" older) as [vs'|] eqn:Hadd;
    [|vm_compute in Hadd; discriminate].
  exists vs'. split; [reflexivity|].
  apply (addVariant_removeVariant "Mug" "7" older vs'); [|exact Hadd].
  repeat constructor; simpl; discriminate.
Defined.

End VariantList.

(** ** Submitting the product-creation form *)

Section CommaLists.
Import Js AddProductPage AddProductForm.

Lemma trimEnd_idemp (s : string) : trimEnd (trimEnd s) = trimEnd s.
Proof.
  induction s as [|c s IH]; simpl; [done|].
  destruct (is_space c && is_empty (trimEnd s)) eqn:H; [done|].
  simpl. by rewrite IH, H.
Qed.

Lemma trimStart_trimEnd (s : string) :
  trimStart (trimEnd (trimStart s)) = trimEnd (trimStart s).
Proof.
  pose proof (trimStart_head s) as Hh.
  destruct (trimStart s) as [|c r]; [done|].
  simpl. rewrite Hh. simpl. by rewrite Hh.
Qed.

Lemma trim_idemp (s : string) : trim (trim s) = trim s.
Proof. unfold trim. by rewrite trimStart_trimEnd, trimEnd_idemp. Qed.

Local Abbreviation not_comma := (λ c : ascii, negb (bool_decide (c = ","%char))).

Lemma split_char_pieces (s : string) :
  split_char "," s ≠ [] ∧ Forall (λ piece, all_chars not_comma piece = true) (split_char "," s).
Proof.
  induction s as [|c s [Hne IH]]; simpl.
  - split; [done|]. by repeat constructor.
  - destruct (decide (c = ","%char)) as [->|Hc].
    + split; [done|]. by constructor.
    + destruct (split_char "," s) as [|piece pieces]; [done|].
      split; [done|]. apply Forall_cons in IH as [Hp Hps].
      constructor; [|done]. simpl. rewrite Hp.
      by rewrite bool_decide_eq_false_2.
Qed.

Lemma parseList_clean (s : string) : Forall clean_item (parseList s).
Proof.
  unfold parseList. destruct (is_empty s); [by constructor|].
  apply Forall_forall. intros x [Hx Hin]%list_elem_of_filter.
  apply list_elem_of_fmap in Hin as (piece & -> & Hpiece).
  destruct (split_char_pieces s) as [_ Hall]. rewrite Forall_forall in Hall.
  split; [done|]. split; [apply trim_idemp|].
  by apply all_chars_trim, Hall.
Qed.

Lemma split_char_clean (p : string) :
  all_chars not_comma p = true → split_char "," p = [p].
Proof.
  induction p as [|c p IH]; simpl; [done|].
  intros [Hc Hp]%andb_true_iff. apply negb_true_iff, bool_decide_eq_false_1 in Hc.
  rewrite decide_False by done. by rewrite IH.
Qed.

Lemma split_char_app (p rest : string) :
  all_chars not_comma p = true →
  split_char "," (p +:+ String "," rest) = p :: split_char "," rest.
Proof.
  induction p as [|c p IH]; [done|].
  intros H. simpl in H. apply andb_true_iff in H as [Hc Hp].
  apply negb_true_iff, bool_decide_eq_false_1 in Hc.
  rewrite app_cons. simpl. rewrite decide_False by done. by rewrite IH.
Qed.

Lemma split_char_join (items : list string) :
  items ≠ [] →
  Forall (λ x, all_chars not_comma x = true) items →
  split_char "," (join "," items) = items.
Proof.
  intros Hne Hall. induction Hall as [|x items Hx Hitems IH]; [done|].
  destruct items as [|y items].
  - simpl. by apply split_char_clean.
  - change (join "," (x :: y :: items)) with (x +:+ String "," (join "," (y :: items))).
    rewrite split_char_app by done. f_equal. by apply IH.
Qed.

Lemma join_not_empty (sep : string) (items : list string) :
  Forall (λ x, x ≠ "") items → items ≠ [] → is_empty (join sep items) = false.
Proof.
  intros Hall Hne. destruct Hall as [|x items Hx _]; [done|].
  destruct x as [|c x]; [done|]. by destruct items.
Qed.

(** X10: the image and tag fields are parsed into pieces that are never
    empty, contain no comma and have no white space at either end; and
    parsing is the inverse of joining with commas: a list of such pieces,
    joined with "," and parsed again, comes back unchanged. *)
Theorem parseList_join (s : string) (items : list string) :
  Forall clean_item items →
  Forall clean_item (parseList s) ∧
  parseList (join "," items) = items.
Proof.
  intros Hclean. split; [apply parseList_clean|].
  destruct items as [|x items]; [done|].
  unfold parseList. rewrite join_not_empty; [|by eapply Forall_impl; [exact Hclean|intros ? [? _]]|done].
  rewrite split_char_join;
    [|done|by eapply Forall_impl; [exact Hclean|intros ? (_ & _ & ?)]].
  clear s. induction Hclean as [|y ys (Hy & Htrim & _) _ IH]; [done|].
  rewrite fmap_cons, filter_cons, Htrim. rewrite decide_True by done.
  by rewrite IH.
Qed.

Lemma parseList_join_witness :
  parseList " a.png, b.png ,, ,c " = ["a.png"; "b.png"; "c"] ∧
  parseList (join "," ["a.png"; "b.png"; "c"]) = ["a.png"; "b.png"; "c"].
Proof.
  split; [vm_compute; reflexivity|].
  refine (proj2 (parseList_join "" ["a.png"; "b.png"; "c"] _)).
  repeat constructor; vm_compute; congruence.
Defined.

End CommaLists.

Section SubmitForm.
Import Js AddProductPage AddProductForm.

Variable Number : Type.
Variable parseFloat : string → Number.
Variable le_zero : Number → bool.

Lemma validateVariants_None (variants : list Variant) :
  validateVariants variants = None ↔ Forall variant_ok variants.
Proof.
  induction variants as [|v vs IH]; simpl.
  - split; [by constructor|done].
  - rewrite Forall_cons, <- IH. unfold variant_ok.
    destruct (color v) as [|c cs], (size v) as [|z zs]; simpl;
      destruct (Z.ltb_spec (initial_stock v) 0); split; try done;
      try (intros [[[?|?] ?] ?]; done || lia);
      try (intros ?; split; [split; [by (left + right)|lia]|done]).
Qed.

Lemma handleSubmit_Create_iff (formData : FormData) (variants : list Variant) :
  (∃ productData, handleSubmit parseFloat le_zero formData variants = Create productData) ↔
  is_empty (trim (fd_name formData)) = false ∧
  fd_price formData ≠ "" ∧
  le_zero (parseFloat (fd_price formData)) = false ∧
  variants ≠ [] ∧
  Forall variant_ok variants.
Proof.
  unfold handleSubmit.
  destruct (is_empty (trim (fd_name formData)));
    [split; [by intros [? ?] | by intros (? & ? & ? & ? & ?)]|].
  destruct (fd_price formData) as [|c price] eqn:Hprice; simpl;
    [split; [by intros [? ?] | by intros (? & ? & ? & ? & ?)]|].
  destruct (le_zero (parseFloat (String c price)));
    [split; [by intros [? ?] | by intros (? & ? & ? & ? & ?)]|].
  destruct variants as [|v vs];
    [split; [by intros [? ?] | by intros (? & ? & ? & ? & ?)]|].
  change (length (v :: vs) =? 0)%nat with false. cbv iota.
  pose proof (validateVariants_None (v :: vs)) as Hval.
  destruct (validateVariants (v :: vs)) as [message|].
  - split; [by intros [? ?]|]. intros (_ & _ & _ & _ & H). apply Hval in H. done.
  - split; [|by eauto]. intros _. repeat split; try done. by apply Hval.
Qed.

(** X8: [handleSubmit] calls the API exactly when the name is not blank,
    the price field is not empty and does not parse to a number ≤ 0, there
    is at least one variant, and every variant has a colour or a size and a
    stock that is not negative; otherwise it stops with a message. *)
Theorem handleSubmit_accepts_iff (formData : FormData) (variants : list Variant) :
  (∃ productData, handleSubmit parseFloat le_zero formData variants = Create productData) ↔
  is_empty (trim (fd_name formData)) = false ∧
  fd_price formData ≠ "" ∧
  le_zero (parseFloat (fd_price formData)) = false ∧
  variants ≠ [] ∧
  Forall variant_ok variants.
Proof. apply handleSubmit_Create_iff. Qed.

Lemma or_undefined_Some (s x : string) :
  or_undefined s = Some x → x = s ∧ s ≠ "".
Proof. unfold or_undefined. destruct s; [done|]. by intros [= <-]. Qed.

(** X9: what reaches the API is well formed.  The name of the payload is
    trimmed and not empty; there is one payload variant per form variant,
    at least one, each with a colour or a size (never an empty string) and
    a stock that is not negative; the images and the tags are clean pieces;
    and the status is "active" whatever the form's [is_active] box says. *)
Theorem handleSubmit_payload
    (formData : FormData) (variants : list Variant) (productData : ProductData Number) :
  handleSubmit parseFloat le_zero formData variants = Create productData →
  pd_name productData ≠ "" ∧ trim (pd_name productData) = pd_name productData ∧
  length (pd_variants productData) = length variants ∧
  (0 < length (pd_variants productData))%nat ∧
  Forall (λ vd, (is_Some (vd_color vd) ∨ is_Some (vd_size vd)) ∧
                vd_color vd ≠ Some "" ∧ vd_size vd ≠ Some "" ∧
                0 ≤ vd_initial_stock vd)
         (pd_variants productData) ∧
  Forall clean_item (pd_images productData) ∧
  Forall clean_item (pd_tags productData) ∧
  pd_status productData = "active".
Proof.
  intros Hsubmit.
  assert (∃ pd, handleSubmit parseFloat le_zero formData variants = Create pd) as Hacc
    by eauto.
  apply handleSubmit_Create_iff in Hacc as (Hname & Hprice & Hpos & Hne & Hok).
  unfold handleSubmit in Hsubmit. rewrite Hname, Hpos in Hsubmit.
  destruct (fd_price formData) as [|c price]; [done|]. cbn [is_empty orb] in Hsubmit.
  assert ((length variants =? 0)%nat = false) as Hlen by (by destruct variants).
  rewrite Hlen in Hsubmit.
  apply validateVariants_None in Hok as Hval. rewrite Hval in Hsubmit.
  injection Hsubmit as <-. cbn [pd_name pd_variants pd_images pd_tags pd_status].
  split; [by intros H; rewrite H in Hname|].
  split; [apply trim_idemp|].
  split; [apply length_fmap|].
  split; [rewrite length_fmap; apply Nat.eqb_neq in Hlen; lia|].
  split; [|split; [apply parseList_clean|split; [apply parseList_clean|done]]].
  apply Forall_fmap. eapply Forall_impl; [exact Hok|].
  intros w [Hcs Hstock]. cbn. unfold or_undefined.
  split; [|split; [|split; [|done]]].
  - destruct Hcs as [Hc|Hs]; [left|right].
    + destruct (color w); [done|]. by eexists.
    + destruct (size w); [done|]. by eexists.
  - by destruct (color w).
  - by destruct (size w).
Qed.

End SubmitForm.

Section SubmitFormExample.
Import Js AddProductPage AddProductForm.

Lemma handleSubmit_payload_witness :
  let formData :=
    {| fd_name := " Mug "; fd_description := ""; fd_price := "5"; fd_brand := "";
       fd_department := ""; fd_category := ""; fd_subcategory := "";
       fd_product_type := ""; fd_images := "a.png, b.png"; fd_tags := "";
       fd_specifications := ∅; fd_is_active := false |} in
  let variants :=
    [{| id := "1"; color := "Red"; size := ""; initial_stock := 2;
        generated_sku := None |}] in
  ∃ productData,
    handleSubmit (λ _, 5) (λ n, n <=? 0) formData variants = Create productData ∧
    pd_status productData = "active".
Proof.
  intros formData variants.
  destruct (handleSubmit (λ _, 5) (λ n, n <=? 0) formData variants)
    as [message|productData] eqn:H.
  - vm_compute in H. discriminate.
  - exists productData. split; [reflexivity|].
    exact (proj2 (proj2 (proj2 (proj2 (proj2 (proj2 (proj2
      (handleSubmit_payload Z (λ _, 5) (λ n, n <=? 0) formData variants productData H)))))))).
Defined.

End SubmitFormExample.

(** ** More about expansion and the inventory cache *)

Section ExpansionInvariants.
Import Js ProductsPage ProductsView.

Implicit Types (st : State) (pid s : string) (variants : list ProductVariant).

Lemma elem_of_delete_other {A} (l : list A) (i : nat) (x y : A) :
  x ∈ l → l !! i = Some y → x ≠ y → x ∈ delete i l.
Proof.
  intros [j Hj]%list_elem_of_lookup Hi Hne.
  apply list_elem_of_lookup.
  destruct (decide (j < i)%nat) as [Hlt|Hge].
  - exists j. by rewrite list_lookup_delete_lt.
  - assert (j ≠ i) by (intros ->; congruence).
    exists (j - 1)%nat. rewrite list_lookup_delete_ge by lia.
    by replace (S (j - 1)) with j by lia.
Qed.

(** X11: a product carries the loading mark only while one of its requests
    is outstanding: in every reachable state each product in
    [loadingInventory] has a suspended [toggleExpand] call, so once no
    request is in flight no product is marked as loading. *)
Theorem loading_mark_has_request st :
  reachable st →
  (∀ pid, pid ∈ loadingInventory st →
          ∃ call, call ∈ inFlight st ∧ productId call = pid) ∧
  (inFlight st = [] → loadingInventory st = ∅).
Proof.
  intros Hreach.
  assert (∀ pid, pid ∈ loadingInventory st →
                 ∃ call, call ∈ inFlight st ∧ productId call = pid) as Hinv.
  { induction Hreach as [|st e st' calls _ IH Hstep].
    - intros pid Hpid. simpl in Hpid. by apply not_elem_of_empty in Hpid.
    - assert (∀ i outcome, settle st i outcome = Some st' →
                ∀ pid, pid ∈ loadingInventory st' →
                       ∃ call, call ∈ inFlight st' ∧ productId call = pid) as Hsettle.
      { intros i outcome (call & Hcall & ->)%settle_Some pid. simpl.
        rewrite elem_of_difference, elem_of_singleton. intros [Hpid Hne].
        destruct (IH pid Hpid) as (call' & Hin & Hid).
        exists call'. split; [|done].
        eapply elem_of_delete_other; [done..|]. intros ->. done. }
      destruct e as [pid0 variants|i inventoryData|i]; simpl in Hstep.
      + apply step_Toggle in Hstep as [-> _]. unfold toggleExpand.
        case_bool_decide; simpl; [done|].
        destruct (0 <? _)%nat; simpl; [|done].
        intros pid. rewrite elem_of_union, elem_of_singleton. intros [->|Hpid].
        * eexists. split; [apply elem_of_app; right; left|done].
        * destruct (IH pid Hpid) as (call & Hin & Hid).
          exists call. split; [|done]. apply elem_of_app. by left.
      + destruct (settle st i (Some inventoryData)) as [st1|] eqn:Hs; simpl in Hstep; [|done].
        injection Hstep as <- _. by eapply Hsettle.
      + destruct (settle st i None) as [st1|] eqn:Hs; simpl in Hstep; [|done].
        injection Hstep as <- _. by eapply Hsettle. }
  split; [exact Hinv|].
  intros Hnil. apply set_eq. intros pid. split.
  - intros Hpid. destruct (Hinv pid Hpid) as (call & Hin & _).
    rewrite Hnil in Hin. by apply not_elem_of_nil in Hin.
  - intros Hpid. by apply not_elem_of_empty in Hpid.
Qed.

Lemma loading_mark_has_request_witness :
  ∃ call, call ∈ inFlight (toggleExpand initial "p" [variant "A"]).1 ∧
          productId call = "p".
Proof.
  assert (reachable (toggleExpand initial "p" [variant "A"]).1) as Hr.
  { apply (reachable_step initial (Toggle "p" [variant "A"]) _ [["A"]]);
      [apply reachable_initial | vm_compute; reflexivity]. }
  apply (proj1 (loading_mark_has_request _ Hr) "p").
  vm_compute. reflexivity.
Defined.

End ExpansionInvariants.

Section ExpansionRuns.
Import Js ProductsPage ProductsView.

Implicit Types (st : State) (pid s : string) (variants : list ProductVariant).

Lemma run_cons st e es st' calls :
  run st (e :: es) = Some (st', calls) →
  ∃ st1 calls1 calls2,
    step st e = Some (st1, calls1) ∧ run st1 es = Some (st', calls2) ∧
    calls = calls1 ++ calls2.
Proof.
  simpl. destruct (step st e) as [[st1 calls1]|] eqn:H1; simpl; [|done].
  destruct (run st1 es) as [[st2 calls2]|] eqn:H2; simpl; [|done].
  intros [= <- <-]. by exists st1, calls1, calls2.
Qed.

Lemma step_counts st e st' calls :
  step st e = Some (st', calls) →
  if is_toggle e
  then length (inFlight st') = (length (inFlight st) + length calls)%nat ∧
       (length calls ≤ 1)%nat
  else calls = [] ∧ S (length (inFlight st')) = length (inFlight st).
Proof.
  destruct e as [pid variants|i inventoryData|i]; simpl.
  - intros [-> ->]%(step_Toggle st pid variants).
    unfold toggleExpand. case_bool_decide; simpl; [lia|].
    destruct (0 <? _)%nat; simpl; [|lia]. rewrite length_app. simpl. lia.
  - destruct (settle st i (Some inventoryData)) as [st1|] eqn:Hs; simpl; [|done].
    intros [= <- <-]. apply settle_Some in Hs as (call & Hcall & ->). simpl.
    split; [done|]. rewrite length_delete by eauto.
    apply lookup_lt_Some in Hcall. lia.
  - destruct (settle st i None) as [st1|] eqn:Hs; simpl; [|done].
    intros [= <- <-]. apply settle_Some in Hs as (call & Hcall & ->). simpl.
    split; [done|]. rewrite length_delete by eauto.
    apply lookup_lt_Some in Hcall. lia.
Qed.

(** X12: requests are neither lost nor invented.  Along every run, the
    requests still in flight plus the completions processed equal the
    requests in flight at the start plus the [getBatch] calls issued; a
    completion issues no call, and a toggle at most one, so there are never
    more calls than toggles. *)
Theorem requests_accounted st es st' calls :
  run st es = Some (st', calls) →
  (length (inFlight st') + length (List.filter is_settle es)
   = length (inFlight st) + length calls)%nat ∧
  (length calls ≤ length (List.filter is_toggle es))%nat.
Proof.
  revert st calls. induction es as [|e es IH]; intros st calls.
  - simpl. intros [= <- <-]. simpl. lia.
  - intros (st1 & calls1 & calls2 & Hstep & Hrun & ->)%run_cons.
    destruct (IH _ _ Hrun) as [IH1 IH2].
    apply step_counts in Hstep. rewrite length_app.
    unfold is_settle in *. simpl. destruct (is_toggle e); simpl.
    + destruct Hstep as [H1 H2]. lia.
    + destruct Hstep as [-> H1]. simpl. lia.
Qed.

Lemma requests_accounted_witness :
  ∃ st', run initial [Toggle "p" [variant "A"]; Toggle "q" [variant "B"]; Reject 0]
         = Some (st', [["A"]; ["B"]]) ∧
         (length (inFlight st') + 1 = 0 + 2)%nat.
Proof.
  destruct (run initial [Toggle "p" [variant "A"]; Toggle "q" [variant "B"]; Reject 0])
    as [[st' calls]|] eqn:Hrun; [|vm_compute in Hrun; discriminate].
  assert (calls = [["A"]; ["B"]]) as ->.
  { vm_compute in Hrun. by injection Hrun as _ <-. }
  exists st'. split; [reflexivity|].
  exact (proj1 (requests_accounted initial _ st' _ Hrun)).
Defined.

(** X13: the cache is written by responses only, and only grows.  Along
    every run no key is ever removed, and the entry of a SKU that no
    response of the run carries is exactly what it was at the start; in
    particular toggles and failed requests leave the whole cache as it is. *)
Theorem cache_written_by_responses_only st es st' calls :
  run st es = Some (st', calls) →
  (∀ s, is_Some (inventoryCache st !! s) → is_Some (inventoryCache st' !! s)) ∧
  (∀ s, ¬ answered es s → inventoryCache st' !! s = inventoryCache st !! s).
Proof.
  revert st calls. induction es as [|e es IH]; intros st calls.
  - simpl. by intros [= <- <-].
  - intros (st1 & calls1 & calls2 & Hstep & Hrun & ->)%run_cons.
    destruct (IH _ _ Hrun) as [IH1 IH2]. split.
    + intros s Hs. apply IH1. by eapply step_cache_mono.
    + intros s Hs. rewrite IH2.
      2:{ intros (i & data & Hin & Hdata). apply Hs. exists i, data.
          split; [by right|done]. }
      destruct e as [pid variants|i inventoryData|i]; simpl in Hstep.
      * injection Hstep as Hstep. rewrite <- (toggleExpand_cache st pid variants).
        by rewrite Hstep.
      * destruct (settle st i (Some inventoryData)) as [st2|] eqn:Hset;
          simpl in Hstep; [|done].
        injection Hstep as <- _. apply settle_Some in Hset as (call & _ & ->). simpl.
        rewrite lookup_union.
        destruct (inventoryData !! s) as [r|] eqn:Hr.
        -- exfalso. apply Hs. exists i, inventoryData. split; [left|]. by rewrite Hr.
        -- by destruct (inventoryCache st !! s).
      * destruct (settle st i None) as [st2|] eqn:Hset; simpl in Hstep; [|done].
        injection Hstep as <- _. by apply settle_Some in Hset as (call & _ & ->).
Qed.

Lemma cache_written_by_responses_only_witness :
  ∃ st', run initial [Toggle "p" [variant "A"]; Reject 0] = Some (st', [["A"]]) ∧
         inventoryCache st' !! "A" = None.
Proof.
  destruct (run initial [Toggle "p" [variant "A"]; Reject 0])
    as [[st' calls]|] eqn:Hrun; [|vm_compute in Hrun; discriminate].
  assert (calls = [["A"]]) as ->.
  { vm_compute in Hrun. by injection Hrun as _ <-. }
  exists st'. split; [reflexivity|].
  refine (eq_trans (proj2 (cache_written_by_responses_only initial _ st' _ Hrun) "A" _) _).
  - intros (i & data & Hin & _).
    apply list_elem_of_In in Hin. simpl in Hin.
    destruct Hin as [H|[H|[]]]; discriminate.
  - reflexivity.
Defined.

(** X14: once the inventory of a product is complete it stays complete:
    along every run, if [hasInventoryLoaded] is true for a variant list at
    the start, it is true at the end. *)
Theorem hasInventoryLoaded_stable st es st' calls variants :
  run st es = Some (st', calls) →
  hasInventoryLoaded (inventoryCache st) variants = true →
  hasInventoryLoaded (inventoryCache st') variants = true.
Proof.
  intros Hrun. rewrite !hasInventoryLoaded_true. intros H v Hv.
  specialize (H v Hv). unfold has in *.
  apply orb_true_iff in H as [H|H]; [|by rewrite H, orb_true_r].
  apply bool_decide_eq_true_1 in H.
  revert st calls Hrun H. induction es as [|e es IH]; intros st calls.
  - simpl. intros [= <- <-] H. by rewrite bool_decide_eq_true_2.
  - intros (st1 & calls1 & calls2 & Hstep & Hrun & ->)%run_cons H.
    eapply IH; [done|]. by eapply step_cache_mono.
Qed.

Lemma hasInventoryLoaded_stable_witness :
  let st := {| expandedProducts := ∅; loadingInventory := ∅;
               inventoryCache := {["A" := record "A" 4 0]}; inFlight := [] |} in
  ∃ st', run st [Toggle "p" [variant "A"]; Toggle "q" [variant "B"]; Reject 0]
         = Some (st', [["B"]]) ∧
         hasInventoryLoaded (inventoryCache st') [variant "A"] = true.
Proof.
  intros st.
  destruct (run st [Toggle "p" [variant "A"]; Toggle "q" [variant "B"]; Reject 0])
    as [[st' calls]|] eqn:Hrun; [|vm_compute in Hrun; discriminate].
  assert (calls = [["B"]]) as ->.
  { vm_compute in Hrun. by injection Hrun as _ <-. }
  exists st'. split; [reflexivity|].
  apply (hasInventoryLoaded_stable st _ st' _ [variant "A"] Hrun).
  vm_compute; reflexivity.
Defined.

End ExpansionRuns.

Section StaleSnapshot.
Import Js ProductsPage ProductsView.

Implicit Types (st : State) (pid s : string) (variants : list ProductVariant).

Lemma toggleExpand_appends st pid variants :
  ∃ more, inFlight (toggleExpand st pid variants).1 = inFlight st ++ more.
Proof.
  unfold toggleExpand. case_bool_decide; simpl.
  - exists []. by rewrite app_nil_r.
  - destruct (0 <? _)%nat; simpl; [by eexists|].
    exists []. by rewrite app_nil_r.
Qed.

Lemma run_toggles_append st es st' calls :
  Forall (λ e, is_toggle e = true) es →
  run st es = Some (st', calls) →
  ∃ more, inFlight st' = inFlight st ++ more.
Proof.
  intros Hall. revert st calls.
  induction Hall as [|e es He _ IH]; intros st calls.
  - simpl. intros [= <- _]. exists []. by rewrite app_nil_r.
  - intros (st1 & calls1 & calls2 & Hstep & Hrun & ->)%run_cons.
    destruct e as [pid variants| |]; [|done..].
    apply step_Toggle in Hstep as [-> _].
    destruct (IH _ _ Hrun) as [more2 ->].
    destruct (toggleExpand_appends st pid variants) as [more1 ->].
    exists (more1 ++ more2). by rewrite app_assoc.
Qed.

(** X15: when the request of an expansion settles, [expandedProducts] is
    replaced by the set computed when the product was toggled.  Whatever
    products the user expands or collapses between the toggle and the
    completion (resolved or rejected), afterwards the expanded set is the
    set at the time of the toggle plus the toggled product: the later
    expansions and collapses are undone. *)
Theorem completion_installs_snapshot st pid variants es st2 calls outcome :
  pid ∉ expandedProducts st →
  skusToFetch (inventoryCache st) variants ≠ [] →
  Forall (λ e, is_toggle e = true) es →
  run (toggleExpand st pid variants).1 es = Some (st2, calls) →
  ∃ st3, settle st2 (length (inFlight st)) outcome = Some st3 ∧
         expandedProducts st3 = {[pid]} ∪ expandedProducts st.
Proof.
  intros Hpid Hfetch Hall Hrun.
  destruct (run_toggles_append _ _ _ _ Hall Hrun) as [more Hmore].
  rewrite toggleExpand_fetch in Hmore by done. simpl in Hmore.
  unfold settle. rewrite Hmore, <- app_assoc. simpl.
  rewrite list_lookup_middle by done. simpl. by eexists.
Qed.

Lemma completion_installs_snapshot_witness :
  let st := {| expandedProducts := ∅; loadingInventory := ∅;
               inventoryCache := {["A" := record "A" 4 0]}; inFlight := [] |} in
  ∃ st2 st3,
    run (toggleExpand st "q" [variant "B"]).1 [Toggle "p" [variant "A"]] = Some (st2, []) ∧
    "p" ∈ expandedProducts st2 ∧
    settle st2 0 None = Some st3 ∧
    expandedProducts st3 = {["q"]} ∪ ∅.
Proof.
  intros st.
  destruct (run (toggleExpand st "q" [variant "B"]).1 [Toggle "p" [variant "A"]])
    as [[st2 calls]|] eqn:Hrun; [|vm_compute in Hrun; discriminate].
  assert (calls = [] ∧ "p" ∈ expandedProducts st2) as [-> Hp].
  { vm_compute in Hrun. injection Hrun as <- <-. split; [done|]. vm_compute. done. }
  assert ("q" ∉ expandedProducts st) as Hq by (simpl; apply not_elem_of_empty).
  assert (skusToFetch (inventoryCache st) [variant "B"] ≠ []) as Hf
    by (vm_compute; discriminate).
  assert (Forall (λ e, is_toggle e = true) [Toggle "p" [variant "A"]]) as Hall
    by (by repeat constructor).
  destruct (completion_installs_snapshot st "q" [variant "B"] _ st2 [] None Hq Hf Hall Hrun)
    as (st3 & Hs & He).
  exists st2, st3. split; [reflexivity|]. split; [exact Hp|]. split; [exact Hs | exact He].
Defined.

End StaleSnapshot.

(** ** Filters, category choices and variant rows of the listing *)

Section ListingView.
Import Js ProductsPage ProductsView.

Lemma insertion_order_go (xs seen : list string) :
  NoDup seen →
  NoDup (foldl (λ seen x, if bool_decide (x ∈ seen) then seen else seen ++ [x]) seen xs) ∧
  ∀ x, x ∈ foldl (λ seen x, if bool_decide (x ∈ seen) then seen else seen ++ [x]) seen xs
       ↔ x ∈ seen ∨ x ∈ xs.
Proof.
  revert seen. induction xs as [|y xs IH]; intros seen Hseen; simpl.
  - split; [done|]. intros x. split; [by left|]. intros [?|H]; [done|].
    by apply not_elem_of_nil in H.
  - case_bool_decide as Hy.
    + destruct (IH seen Hseen) as [Hnd Hmem]. split; [done|].
      intros x. rewrite Hmem, elem_of_cons. split; [tauto|].
      intros [?|[->|?]]; tauto.
    + assert (NoDup (seen ++ [y])) as Hnd'.
      { apply NoDup_app. split; [done|]. split; [|apply NoDup_singleton].
        intros x Hx ->%list_elem_of_singleton. done. }
      destruct (IH _ Hnd') as [Hnd Hmem]. split; [done|].
      intros x. rewrite Hmem, elem_of_app, list_elem_of_singleton, elem_of_cons. tauto.
Qed.

Lemma elem_of_categories (products : list Product) (c : string) :
  c ∈ categories products ↔ c ≠ "" ∧ ∃ p, p ∈ products ∧ p_category p = Some c.
Proof.
  unfold categories. rewrite list_elem_of_omap. split.
  - intros (p & Hp & Hc). destruct (p_category p) as [c'|] eqn:Hcat; simpl in Hc; [|done].
    destruct c' as [|a c']; simpl in Hc; [done|]. injection Hc as <-.
    split; [done|]. by exists p.
  - intros (Hne & p & Hp & Hcat). exists p. split; [done|]. rewrite Hcat. simpl.
    by destruct c.
Qed.

Lemma elem_of_getUniqueCategories (products : list Product) :
  NoDup (getUniqueCategories products) ∧
  ∀ c, c ∈ getUniqueCategories products ↔
       c ≠ "" ∧ ∃ p, p ∈ products ∧ p_category p = Some c.
Proof.
  unfold getUniqueCategories, insertion_order.
  destruct (insertion_order_go (categories products) [] (NoDup_nil_2)) as [Hnd Hmem].
  split; [done|]. intros c. rewrite Hmem, <- elem_of_categories.
  split; [|by right]. intros [H|H]; [|done]. by apply not_elem_of_nil in H.
Qed.

(** X16: the category choices offered by the filter are exactly the
    non-empty categories that occur among the products, each listed once. *)
Theorem getUniqueCategories_spec (products : list Product) :
  NoDup (getUniqueCategories products) ∧
  ∀ c, c ∈ getUniqueCategories products ↔
       c ≠ "" ∧ ∃ p, p ∈ products ∧ p_category p = Some c.
Proof. apply elem_of_getUniqueCategories. Qed.

Lemma List_filter_sublist {A} (f : A → bool) (l : list A) :
  List.filter f l `sublist_of` l.
Proof.
  induction l as [|x l IH]; simpl; [done|].
  destruct (f x); [by apply sublist_skip | by apply sublist_cons].
Qed.

Lemma elem_of_List_filter {A} (f : A → bool) (l : list A) (x : A) :
  x ∈ List.filter f l ↔ x ∈ l ∧ f x = true.
Proof. rewrite !list_elem_of_In. apply filter_In. Qed.

Lemma elem_of_filterProducts
    (products : list Product) (searchTerm categoryFilter statusFilter : string) :
  filterProducts products searchTerm categoryFilter statusFilter `sublist_of` products ∧
  (∀ p, p ∈ filterProducts products searchTerm categoryFilter statusFilter ↔
        p ∈ products ∧
        (searchTerm = "" ∨ matches_search searchTerm p = true) ∧
        (categoryFilter = "all" ∨ p_category p = Some categoryFilter) ∧
        (statusFilter = "all" ∨ p_status p = statusFilter)) ∧
  filterProducts products "" "all" "all" = products.
Proof.
  split; [|split; [|done]].
  - unfold filterProducts.
    destruct (is_empty searchTerm); do 2 case_bool_decide;
      repeat (etrans; [apply List_filter_sublist|]); done.
  - intros p. unfold filterProducts.
    assert (is_empty searchTerm = true ↔ searchTerm = "") as He by apply is_empty_true.
    destruct (is_empty searchTerm) eqn:Hs;
      case_bool_decide as Hc; case_bool_decide as Hst;
      rewrite ?elem_of_List_filter, ?bool_decide_eq_true;
      try apply dec_stable in Hc; try apply dec_stable in Hst;
      intuition (try congruence).
Qed.

(** X17: [filterProducts] shows a sub-list of the products, in their
    original order; a product is shown exactly when it passes each active
    criterion, where an empty search term and the value "all" of a filter
    mean that the criterion is off; so with no search term and both filters
    on "all" every product is shown. *)
Theorem filterProducts_spec
    (products : list Product) (searchTerm categoryFilter statusFilter : string) :
  filterProducts products searchTerm categoryFilter statusFilter `sublist_of` products ∧
  (∀ p, p ∈ filterProducts products searchTerm categoryFilter statusFilter ↔
        p ∈ products ∧
        (searchTerm = "" ∨ matches_search searchTerm p = true) ∧
        (categoryFilter = "all" ∨ p_category p = Some categoryFilter) ∧
        (statusFilter = "all" ∨ p_status p = statusFilter)) ∧
  filterProducts products "" "all" "all" = products.
Proof. apply elem_of_filterProducts. Qed.

(** X18: every category offered by the filter finds something: selecting a
    choice other than one spelled "all", with no search term and no status
    filter, shows at least one product, and only products of that
    category. *)
Theorem offered_category_not_empty (products : list Product) (c : string) :
  c ∈ getUniqueCategories products →
  c ≠ "all" →
  filterProducts products "" c "all" ≠ [] ∧
  Forall (λ p, p_category p = Some c) (filterProducts products "" c "all").
Proof.
  intros Hc Hall.
  apply elem_of_getUniqueCategories in Hc as (_ & p & Hp & Hcat).
  destruct (elem_of_filterProducts products "" c "all") as (_ & Hmem & _). split.
  - intros Hnil. assert (p ∈ filterProducts products "" c "all") as Hin.
    { apply Hmem. by auto. }
    rewrite Hnil in Hin. by apply not_elem_of_nil in Hin.
  - apply Forall_forall. intros q Hq. apply Hmem in Hq as (_ & _ & [?|?] & _); done.
Qed.

Lemma offered_category_not_empty_witness :
  let products :=
    [{| p_id := "1"; p_name := "Mug"; p_description := ""; p_sku := "M1";
        p_category := Some "Kitchen"; p_status := "active" |};
     {| p_id := "2"; p_name := "Pen"; p_description := ""; p_sku := "P2";
        p_category := Some "Office"; p_status := "active" |}] in
  filterProducts products "" "Kitchen" "all" ≠ [] ∧
  Forall (λ p, p_category p = Some "Kitchen") (filterProducts products "" "Kitchen" "all").
Proof.
  intros products.
  refine (offered_category_not_empty products "Kitchen" _ _).
  - vm_compute. left.
  - discriminate.
Defined.

(** X19: in a variant row the badge and the availability text agree when
    the cached available quantity is not negative: "Available" is shown
    exactly when the badge is not "Out of Stock"; and a variant with no
    cache entry is shown as "Out of Stock", "Unavailable", with no
    "reserved" note. *)
Theorem variantRow_consistent
    (inventoryCache : gmap string InventoryData) (variant : ProductVariant) :
  (∀ r, inventoryCache !! sku variant = Some r → 0 ≤ quantityAvailable r) →
  (row_available (variantRow inventoryCache variant) = true ↔
   row_badge (variantRow inventoryCache variant) ≠ OutOfStock) ∧
  (inventoryCache !! sku variant = None →
   row_badge (variantRow inventoryCache variant) = OutOfStock ∧
   row_available (variantRow inventoryCache variant) = false ∧
   row_reserved (variantRow inventoryCache variant) = None).
Proof.
  intros Hpos.
  assert (∀ q, 0 ≤ q → ((0 <? q) = true ↔ StockBadge q ≠ OutOfStock)) as Hbadge.
  { intros q Hq. unfold StockBadge.
    destruct (Z.eqb_spec q 0) as [->|Hz]; [done|].
    destruct (Z.ltb_spec 0 q); [|lia].
    split; [|done]. intros _. by destruct (q <? 10). }
  unfold variantRow. cbn [row_available row_badge row_reserved]. unfold get.
  destruct (inventoryCache !! sku variant) as [r|] eqn:Hr.
  - split; [|done]. apply Hbadge. specialize (Hpos r eq_refl). simpl.
    by destruct (quantityAvailable r =? 0).
  - split; [|by destruct (inherited (sku variant))].
    apply Hbadge. by destruct (inherited (sku variant)).
Qed.

Lemma variantRow_consistent_witness :
  row_available (variantRow {["A" := record "A" 4 1]} (variant "A")) = true ↔
  row_badge (variantRow {["A" := record "A" 4 1]} (variant "A")) ≠ OutOfStock.
Proof.
  apply (variantRow_consistent {["A" := record "A" 4 1]} (variant "A")).
  intros r Hr. vm_compute in Hr. injection Hr as <-. vm_compute. discriminate.
Defined.

End ListingView.

(** ** Signing in *)

Section SignIn.
Import Js Auth.

Lemma truthy_string_Some (x : option string) (m : string) :
  truthy_string x = Some m → m ≠ "".
Proof.
  destruct x as [s|]; simpl; [|done]. destruct s; simpl; [done|]. by intros [= <-].
Qed.

Lemma or_else_not_empty (x : option string) (fallback : string) :
  fallback ≠ "" → or_else x fallback ≠ "".
Proof.
  intros Hf. unfold or_else.
  destruct (truthy_string x) as [m|] eqn:Hm; simpl; [|done].
  by eapply truthy_string_Some.
Qed.

Lemma userMessage_not_empty (error : RequestError) : userMessage error ≠ "".
Proof.
  unfold userMessage. destruct (re_response error) as [response|].
  - destruct ((er_status response =? 502) || (er_status response =? 503)); [done|].
    destruct (er_status response =? 401); [by apply or_else_not_empty|].
    destruct (truthy_string (er_data_error_message response)) eqn:H1;
      [by eapply truthy_string_Some|].
    destruct (truthy_string (er_data_message response)) eqn:H2;
      [by eapply truthy_string_Some|done].
  - by destruct (_ || _).
Qed.

Lemma login_cases (now : string) (outcome : PostOutcome) :
  (success (login now outcome) = true ∧
   ld_token (data (login now outcome)) ≠ "" ∧
   is_Some (ld_user (data (login now outcome))) ∧
   ∃ t user refreshToken error_message,
     outcome = PostResolved (Some t) (Some user) refreshToken error_message ∧ t ≠ "") ∨
  (success (login now outcome) = false ∧
   data (login now outcome) = no_data ∧
   ∃ m, message (login now outcome) = Some m ∧ m ≠ "").
Proof.
  destruct outcome as [token user refreshToken error_message|error]; simpl.
  - destruct token as [[|c t]|]; simpl.
    + right. repeat split. eexists. split; [done|]. by apply or_else_not_empty.
    + destruct user as [user|]; simpl.
      * left. repeat split; [done|by eexists|]. by eexists _, _, _, _.
      * right. repeat split. eexists. split; [done|]. by apply or_else_not_empty.
    + right. repeat split. eexists. split; [done|]. by apply or_else_not_empty.
  - right. repeat split. eexists. split; [done|]. apply userMessage_not_empty.
Qed.

(** X20: [authApi.login] never rejects, and its answer is one of two kinds:
    success exactly when the service returned a non-empty token together
    with a user, and then the answer carries that very token and that user,
    converted; or failure with empty data and a message that is never
    empty. *)
Theorem login_answer (now : string) (outcome : PostOutcome) :
  (success (login now outcome) = true ↔
   ∃ t user refreshToken error_message,
     outcome = PostResolved (Some t) (Some user) refreshToken error_message ∧ t ≠ "") ∧
  (∀ t user refreshToken error_message,
     outcome = PostResolved (Some t) (Some user) refreshToken error_message →
     t ≠ "" →
     ld_token (data (login now outcome)) = t ∧
     ld_user (data (login now outcome)) = Some (frontendUser now user) ∧
     message (login now outcome) = None) ∧
  (success (login now outcome) = true ∧
   ld_token (data (login now outcome)) ≠ "" ∧
   is_Some (ld_user (data (login now outcome)))
   ∨
   success (login now outcome) = false ∧
   data (login now outcome) = no_data ∧
   ∃ m, message (login now outcome) = Some m ∧ m ≠ "").
Proof.
  split; [|split].
  - split.
    + intros Hs. destruct (login_cases now outcome) as [(_ & _ & _ & H)|(Hf & _)];
        [done|congruence].
    + intros (t & user & r & e & -> & Ht). simpl. by destruct t.
  - intros t user r e -> Ht. simpl. by destruct t.
  - destruct (login_cases now outcome) as [(? & ? & ? & _)|?]; [left|right]; done.
Qed.

(** X21: what the login form does on submit.  With an empty email or
    password it only reports "Please enter both email and password" and
    sends nothing.  Otherwise it dispatches [loginStart], calls the API
    once, and then either dispatches [loginSuccess] with a non-empty token
    and navigates to the dashboard, or dispatches [loginFailure] with the
    non-empty message that [authApi.login] chose: the page's own fallback
    texts are never shown. *)
Theorem submit_effects (email password now : string) (outcome : PostOutcome) :
  let effects := submit email password now outcome in
  let response := login now outcome in
  ((email = "" ∨ password = "") ∧
   effects = [Dispatch_loginFailure "Please enter both email and password"])
  ∨
  (email ≠ "" ∧ password ≠ "" ∧ success response = true ∧
   ld_token (data response) ≠ "" ∧
   effects = [Dispatch_loginStart; Call_login email password;
              Dispatch_loginSuccess (data response); Navigate "/dashboard"])
  ∨
  (email ≠ "" ∧ password ≠ "" ∧ success response = false ∧
   ∃ m, message response = Some m ∧ m ≠ "" ∧
        effects = [Dispatch_loginStart; Call_login email password;
                   Dispatch_loginFailure m]).
Proof.
  intros effects response. subst effects response. unfold submit, handleSubmit.
  destruct email as [|a email]; [left; split; [by left|done]|].
  destruct password as [|b password]; [left; split; [by right|done]|].
  right. cbn [is_empty orb].
  destruct (login_cases now outcome) as [(Hs & Ht & _)|(Hf & _ & m & Hm & Hne)].
  - left. rewrite Hs. done.
  - right. rewrite Hf. repeat split; try done.
    exists m. repeat split; try done.
    rewrite Hm. unfold or_else. simpl. by destruct m.
Qed.

End SignIn.

(** ** When the form throws *)

Section FormThrows.
Import Js AddProductPage AddProductForm.

Lemma regenerate_None (name0 : string) (v : Variant) :
  regenerate name0 v = None ↔ is_empty (trim name0) = false ∧ bad_size (size v).
Proof.
  unfold regenerate.
  pose proof (generateSkuPreview_Throw name0 (Some (color v)) (Some (size v))) as H.
  destruct (generateSkuPreview name0 (Some (color v)) (Some (size v))) as [preview|].
  - split; [done|]. intros [Hn Hb]. assert (Return preview = Throw_TypeError); [|done].
    apply H. split; [done|]. by exists (size v).
  - split; [|done]. intros _. destruct H as [H _].
    destruct (H eq_refl) as (Hn & s & [= <-] & Hb). done.
Qed.

Lemma not_bad_size_empty : ¬ bad_size "".
Proof. intros [H|H]; vm_compute in H; discriminate. Qed.

Lemma addVariant_is_Some (name0 now : string) (vs : list Variant) :
  ∃ preview,
    addVariant name0 now vs =
    Some (vs ++ [{| id := now; color := ""; size := ""; initial_stock := 0;
                    generated_sku := Some preview |}]).
Proof.
  unfold addVariant.
  pose proof (generateSkuPreview_Throw name0 (Some "") (Some "")) as H.
  destruct (generateSkuPreview name0 (Some "") (Some "")) as [preview|]; [by eexists|].
  destruct H as [H _]. destruct (H eq_refl) as (_ & s & [= <-] & Hb).
  by apply not_bad_size_empty in Hb.
Qed.

Lemma mapM_sizes (f : Variant → option Variant) (vs vs' : list Variant) :
  (∀ v v', f v = Some v' → ¬ bad_size (size v) → ¬ bad_size (size v')) →
  Forall (λ v, ¬ bad_size (size v)) vs →
  mapM f vs = Some vs' →
  Forall (λ v, ¬ bad_size (size v)) vs'.
Proof.
  intros Hf Hall. rewrite mapM_Some. intros H.
  induction H as [|v v' vs vs' Hv _ IH]; [done|].
  apply Forall_cons in Hall as [Hv0 Hvs]. constructor; [by eapply Hf|by apply IH].
Qed.

Lemma form_step_plain (f : Form) (e : FormEvent) :
  Forall (λ v, ¬ bad_size (size v)) (variants f) →
  plain_event e →
  ∃ f', form_step f e = Some f' ∧ Forall (λ v, ¬ bad_size (size v)) (variants f').
Proof.
  intros Hall He. destruct e as [value|now|id0|id0 fv]; simpl.
  - destruct (decide (value = name f)); [by eexists|].
    destruct (previewEffect value (variants f)) as [vs|] eqn:Heff; simpl.
    + eexists. split; [done|]. simpl. eapply mapM_sizes; [|exact Hall|exact Heff].
      intros v v' (_ & _ & _ & Hs & _)%regenerate_Some. by rewrite Hs.
    + exfalso. unfold previewEffect in Heff.
      assert (is_Some (mapM (regenerate value) (variants f))) as [? Hs]; [|congruence].
      apply mapM_is_Some. eapply Forall_impl; [exact Hall|].
      intros v Hv. simpl. destruct (regenerate value v) eqn:Hr; [by eexists|].
      apply regenerate_None in Hr as [_ Hb]. done.
  - destruct (addVariant_is_Some (name f) now (variants f)) as [preview ->]. simpl.
    eexists. split; [done|]. simpl. apply Forall_app. split; [done|].
    constructor; [|done]. simpl. apply not_bad_size_empty.
  - eexists. split; [done|]. simpl. unfold removeVariant.
    rewrite Forall_forall in Hall. apply Forall_forall.
    intros v [_ Hv]%list_elem_of_filter. by apply Hall.
  - pose (g := λ v : Variant,
                 if decide (id v = id0)
                 then match fv with
                      | Color _ | Size _ => regenerate (name f) (assign v fv)
                      | InitialStock _ => Some (assign v fv)
                      end
                 else Some v).
    assert (∀ v, ¬ bad_size (size v) → ∃ v', g v = Some v' ∧ ¬ bad_size (size v')) as Hone.
    { intros v Hv. unfold g. destruct (decide (id v = id0)); [|by eexists].
      assert (¬ bad_size (size (assign v fv))) as Hsize by (by destruct fv).
      destruct fv as [value|value|value]; [| |by eexists].
      - destruct (regenerate (name f) (assign v (Color value))) as [v'|] eqn:Hr.
        + exists v'. split; [done|].
          apply regenerate_Some in Hr as (_ & _ & _ & Hs & _). by rewrite Hs.
        + apply regenerate_None in Hr as [_ Hb]. done.
      - destruct (regenerate (name f) (assign v (Size value))) as [v'|] eqn:Hr.
        + exists v'. split; [done|].
          apply regenerate_Some in Hr as (_ & _ & _ & Hs & _). by rewrite Hs.
        + apply regenerate_None in Hr as [_ Hb]. done. }
    unfold updateVariant. fold g.
    assert (is_Some (mapM g (variants f))) as [vs' Hvs'].
    { apply mapM_is_Some. eapply Forall_impl; [exact Hall|].
      intros v Hv. simpl. destruct (Hone v Hv) as (v' & -> & _). by eexists. }
    rewrite Hvs'. simpl. eexists. split; [done|]. simpl.
    eapply mapM_sizes; [|exact Hall|exact Hvs'].
    intros v v' Hv' Hv. destruct (Hone v Hv) as (v'' & Heq & Hs).
    rewrite Heq in Hv'. by injection Hv' as <-.
Qed.

(** X22: the form's state updates never throw as long as nobody types a
    size that reads "constructor" or "__proto__" once lowercased and
    trimmed: every sequence of name changes, additions, removals and edits
    without such a size runs to the end. *)
Theorem form_never_throws (es : list FormEvent) :
  Forall plain_event es →
  ∃ f, form_run empty_form es = Some f.
Proof.
  assert (∀ f0, Forall (λ v, ¬ bad_size (size v)) (variants f0) →
                Forall plain_event es → ∃ f, form_run f0 es = Some f) as Hgen.
  { induction es as [|e es IH]; intros f0 H0 Hes; simpl; [by eexists|].
    apply Forall_cons in Hes as [He Hes].
    destruct (form_step_plain f0 e H0 He) as (f1 & -> & H1). simpl. by apply IH. }
  apply Hgen. by constructor.
Qed.

Lemma form_never_throws_witness :
  ∃ f, form_run empty_form
         [AddVariant "1"; ChangeName "Mug"; UpdateVariant "1" (Size "Large")] = Some f.
Proof.
  apply (form_never_throws
           [AddVariant "1"; ChangeName "Mug"; UpdateVariant "1" (Size "Large")]).
  repeat constructor. intros [H|H]; vm_compute in H; discriminate.
Defined.

(** X23: editing the size of a variant throws exactly when the product name
    is not blank, some variant has the edited id, and the size, lowercased
    and trimmed, is "constructor" or "__proto__". *)
Theorem updateVariant_size_throws_iff
    (name0 id0 value : string) (vs : list Variant) :
  updateVariant name0 id0 (Size value) vs = None ↔
  (∃ v, v ∈ vs ∧ id v = id0) ∧ is_empty (trim name0) = false ∧ bad_size value.
Proof.
  unfold updateVariant. rewrite mapM_None, Exists_exists. split.
  - intros (v & Hv & Hf). destruct (decide (id v = id0)) as [Hid|Hid]; [|done].
    apply regenerate_None in Hf as [Hn Hb]. split; [by exists v|done].
  - intros ((v & Hv & Hid) & Hn & Hb). exists v. split; [done|].
    rewrite decide_True by done. by apply regenerate_None.
Qed.

End FormThrows.

(** ** Retrying a failed fetch *)

Section Retry.
Import Js ProductsPage ProductsView.

Implicit Types (st : State) (pid s : string) (variants : list ProductVariant).

(** X24: re-expansion is the retry.  After the request of a product has
    failed, collapsing the product and expanding it again issues exactly one
    new request, for the SKUs of the product that are still missing from
    the cache. *)
Theorem retry_after_failure st i call variants :
  reachable st →
  inFlight st !! i = Some call →
  skusToFetch (inventoryCache st) variants ≠ [] →
  ∃ st3,
    run st [Reject i; Toggle (productId call) variants; Toggle (productId call) variants]
    = Some (st3, [skusToFetch (inventoryCache st) variants]) ∧
    inventoryCache st3 = inventoryCache st.
Proof.
  intros Hreach Hcall Hfetch.
  pose proof (reachable_inFlight st Hreach) as Hok.
  rewrite Forall_lookup in Hok. destruct (Hok i call Hcall) as [Hpid _].
  pose (st1 := {| expandedProducts := newExpanded call;
                  loadingInventory := loadingInventory st ∖ {[productId call]};
                  inventoryCache := inventoryCache st;
                  inFlight := delete i (inFlight st) |}).
  assert (step st (Reject i) = Some (st1, [])) as H1.
  { simpl. unfold settle. by rewrite Hcall. }
  pose (st2 := {| expandedProducts := expandedProducts st1 ∖ {[productId call]};
                  loadingInventory := loadingInventory st1;
                  inventoryCache := inventoryCache st1;
                  inFlight := inFlight st1 |}).
  assert (step st1 (Toggle (productId call) variants) = Some (st2, [])) as H2.
  { simpl. by rewrite toggleExpand_collapse. }
  assert (productId call ∉ expandedProducts st2) as Hout.
  { simpl. rewrite elem_of_difference, elem_of_singleton. by intros [_ ?]. }
  pose proof (toggleExpand_fetch st2 (productId call) variants Hout Hfetch) as H3.
  eexists. split.
  - cbn [run]. rewrite H1. cbn [mbind option_bind].
    rewrite H2. cbn [mbind option_bind].
    change (step st2 (Toggle (productId call) variants))
      with (Some (toggleExpand st2 (productId call) variants)).
    rewrite H3. reflexivity.
  - reflexivity.
Qed.

Lemma retry_after_failure_witness :
  let st := (toggleExpand initial "p" [variant "A"]).1 in
  ∃ st3, run st [Reject 0; Toggle "p" [variant "A"]; Toggle "p" [variant "A"]]
         = Some (st3, [["A"]]) ∧
         inventoryCache st3 = inventoryCache st.
Proof.
  intros st.
  assert (reachable st) as Hr.
  { apply (reachable_step initial (Toggle "p" [variant "A"]) st [["A"]]);
      [apply reachable_initial | vm_compute; reflexivity]. }
  assert (inFlight st !! 0%nat =
          Some {| productId := "p"; requested := ["A"]; newExpanded := {["p"]} ∪ ∅ |})
    as Hcall by (vm_compute; reflexivity).
  assert (skusToFetch (inventoryCache st) [variant "A"] ≠ []) as Hf
    by (vm_compute; discriminate).
  exact (retry_after_failure st 0 _ [variant "A"] Hr Hcall Hf).
Defined.

End Retry.
